(** * Matchmaking and signal relay of the two signaling servers

    The repository holds two socket.io signaling servers:
    - [omegle_server/src/index.ts], the basic server ([Module Basic]);
    - [server/src/index.js], the enhanced server ([Module Enhanced]), which
      adds per-connection metadata, a liveness check before relaying, error
      and waiting notifications, and a periodic sweep of the waiting queue.

    Both are embedded handler by handler.  A handler runs to completion on
    the server's global variables, so it is a computation in a small monad
    that threads the globals, records what is emitted and logged, in order,
    and may raise a JavaScript exception. *)

From Stdlib Require Import ZArith QArith Lia.
From stdpp Require Import base option strings pretty list gmap.

#[local] Set Warnings "-register-all,-clear-no-such-hyp".

Local Open Scope Z_scope.
Local Open Scope string_scope.

(** ** JavaScript values carried by the handlers *)

(** Values that arrive in a socket.io packet.  Numbers are only carried
    around (queue positions in log lines), never computed on.  The property
    list of an object is in the order in which [Object.keys] reports it. *)
Inductive JsValue : Type :=
| JsUndefined
| JsNull
| JsBool (b : bool)
| JsNumber (n : Z)
| JsString (s : string)
| JsArray (elems : list JsValue)
| JsObject (props : list (string * JsValue)).

Inductive Exn : Type :=
| TypeError (message : string).

(** [null] and [undefined] are the two values on which a property read or
    [Object.keys] throws. *)
Definition nullish (v : JsValue) : bool :=
  match v with
  | JsUndefined | JsNull => true
  | _ => false
  end.

Fixpoint assoc (k : string) (props : list (string * JsValue)) : option JsValue :=
  match props with
  | [] => None
  | (k', v) :: rest => if decide (k' = k) then Some v else assoc k rest
  end.

(** The expression [payload.type].  No prototype of a primitive, an array or
    a plain object has a [type] property, so only an own property answers.
    The messages of the errors are worded as V8 words them. *)
Definition read_type (payload : JsValue) : Exn + JsValue :=
  match payload with
  | JsUndefined =>
      inl (TypeError "Cannot read properties of undefined (reading 'type')")
  | JsNull =>
      inl (TypeError "Cannot read properties of null (reading 'type')")
  | JsObject props => inr (default JsUndefined (assoc "type" props))
  | _ => inr JsUndefined
  end.

Definition index_keys (n : nat) : list JsValue :=
  (fun i : nat => JsString (pretty (Z.of_nat i))) <$> seq 0 n.

(** The expression [Object.keys(payload)]. *)
Definition object_keys (payload : JsValue) : Exn + JsValue :=
  match payload with
  | JsUndefined | JsNull =>
      inl (TypeError "Cannot convert undefined or null to object")
  | JsString s => inr (JsArray (index_keys (String.length s)))
  | JsArray elems => inr (JsArray (index_keys (length elems)))
  | JsObject props => inr (JsArray ((fun p => JsString p.1) <$> props))
  | _ => inr (JsArray [])
  end.

(** A signaling payload as a client library sends it. *)
Definition offer : JsValue :=
  JsObject [("type", JsString "offer"); ("sdp", JsString "v=0")].

(** Truthiness of what [Map.get] or [findMatch] hands back: [undefined],
    [null] (both [None]) and the empty string are falsy. *)
Definition truthy (v : option string) : bool :=
  match v with
  | Some s => bool_decide (s ≠ EmptyString)
  | None => false
  end.

(** A pair table is symmetric when partners point at each other. *)
Definition symmetric (m : gmap string string) : Prop :=
  forall a b, m !! a = Some b -> m !! b = Some a.

(** ** Messages to clients *)

Inductive Msg : Type :=
| MatchFound (peerSocketId : string) (isInitiator : bool)
| WaitingForPeer
| Signal (payload : JsValue)
| PeerDisconnected
| Error (message : string).

(** ** The handler monad *)

Inductive Effect (Lg : Type) : Type :=
| Emit (to : string) (m : Msg)
| Log (line : Lg).
Arguments Emit {Lg} to m.
Arguments Log {Lg} line.

Record Outcome (St Lg A : Type) : Type := MkOutcome {
  value : Exn + A;
  final : St;
  trace : list (Effect Lg)
}.
Arguments MkOutcome {St Lg A} value final trace.
Arguments value {St Lg A} o.
Arguments final {St Lg A} o.
Arguments trace {St Lg A} o.

Definition M (St Lg A : Type) : Type := St -> Outcome St Lg A.

Definition ret {St Lg A} (a : A) : M St Lg A :=
  fun s => MkOutcome (inr a) s [].

Definition bind {St Lg A B} (m : M St Lg A) (k : A -> M St Lg B) : M St Lg B :=
  fun s =>
    let r := m s in
    match value r with
    | inl e => MkOutcome (inl e) (final r) (trace r)
    | inr a =>
        let r' := k a (final r) in
        MkOutcome (value r') (final r') (trace r ++ trace r')
    end.

Definition gets {St Lg A} (f : St -> A) : M St Lg A :=
  fun s => MkOutcome (inr (f s)) s [].

Definition modify {St Lg} (f : St -> St) : M St Lg unit :=
  fun s => MkOutcome (inr tt) (f s) [].

Definition tell {St Lg} (e : Effect Lg) : M St Lg unit :=
  fun s => MkOutcome (inr tt) s [e].

Definition throw {St Lg A} (e : Exn) : M St Lg A :=
  fun s => MkOutcome (inl e) s [].

(** Evaluation of an expression that may throw. *)
Definition eval {St Lg A} (v : Exn + A) : M St Lg A :=
  match v with
  | inl e => throw e
  | inr a => ret a
  end.

(** [try { body } catch (error) { handler }] *)
Definition try_catch {St Lg A} (body : M St Lg A) (handler : Exn -> M St Lg A)
  : M St Lg A :=
  fun s =>
    let r := body s in
    match value r with
    | inl e =>
        let r' := handler e (final r) in
        MkOutcome (value r') (final r') (trace r ++ trace r')
    | inr a => r
    end.

(** [if (v) { yes } else { no }] on a socket id that may be missing. *)
Definition if_truthy {St Lg A} (v : option string)
    (yes : string -> M St Lg A) (no : M St Lg A) : M St Lg A :=
  match v with
  | Some s => if truthy (Some s) then yes s else no
  | None => no
  end.

Declare Scope handler_scope.
Delimit Scope handler_scope with handler.
Notation "'let*' x := m 'in' k" := (bind m (fun x => k))
  (at level 10, x name, m at level 100, k at level 200) : handler_scope.
Notation "m >> k" := (bind m (fun _ => k))
  (at level 80, right associativity) : handler_scope.
Local Open Scope handler_scope.

(** What a trace sends to clients, in order. *)
Fixpoint emitted {Lg} (t : list (Effect Lg)) : list (string * Msg) :=
  match t with
  | [] => []
  | Emit to m :: t' => (to, m) :: emitted t'
  | Log _ :: t' => emitted t'
  end.

Fixpoint logged {Lg} (t : list (Effect Lg)) : list Lg :=
  match t with
  | [] => []
  | Emit _ _ :: t' => logged t'
  | Log l :: t' => l :: logged t'
  end.

(** ** The enhanced server, [server/src/index.js] *)

Module Enhanced.

Record User : Type := MkUser {
  socketId : string;
  joinedAt : Z;                 (* [joinedAt.getTime()], milliseconds *)
  userAgent : option string     (* the header may be absent *)
}.

(** The globals of the module, and [io.sockets.sockets], the ids of the
    connections socket.io holds open, which the handlers only read. *)
Record State : Type := MkState {
  sockets : gset string;
  waitingQueue : list User;
  peers : gmap string string;
  userInfo : gmap string User
}.

Record LogEntry : Type := MkLog {
  log_socket : string;
  log_event : string;
  log_details : JsValue
}.

Abbreviation H := (M State LogEntry).

Definition set_waitingQueue (q : list User) (s : State) : State :=
  MkState (sockets s) q (peers s) (userInfo s).
Definition set_peers (p : gmap string string) (s : State) : State :=
  MkState (sockets s) (waitingQueue s) p (userInfo s).
Definition set_userInfo (u : gmap string User) (s : State) : State :=
  MkState (sockets s) (waitingQueue s) (peers s) u.

Definition peers_get (k : string) : H (option string) :=
  gets (fun s => peers s !! k).
Definition peers_set (k v : string) : H unit :=
  modify (fun s => set_peers (<[k := v]> (peers s)) s).
Definition peers_delete (k : string) : H unit :=
  modify (fun s => set_peers (delete k (peers s)) s).
Definition userInfo_set (k : string) (u : User) : H unit :=
  modify (fun s => set_userInfo (<[k := u]> (userInfo s)) s).
Definition userInfo_delete (k : string) : H unit :=
  modify (fun s => set_userInfo (delete k (userInfo s)) s).
Definition sockets_has (k : string) : H bool :=
  gets (fun s => bool_decide (k ∈ sockets s)).
Definition emit (to : string) (m : Msg) : H unit := tell (Emit to m).

(** [logConnection] prints one line; the line is recorded by what it is
    made from, without the clock reading that prefixes it. *)
Definition logConnection (socketId event : string) (details : JsValue) : H unit :=
  tell (Log (MkLog socketId event details)).

Definition js_opt_string (o : option string) : JsValue :=
  match o with
  | Some s => JsString s
  | None => JsUndefined
  end.

Definition cleanupUser (socketId' : string) : H unit :=
  let* peerSocketId := peers_get socketId' in
  if_truthy peerSocketId
    (fun peerSocketId => peers_delete peerSocketId >> peers_delete socketId')
    (ret tt) >>
  modify (fun s =>
    set_waitingQueue
      (filter (fun user => socketId user ≠ socketId') (waitingQueue s)) s) >>
  userInfo_delete socketId'.

Definition findMatch (currentSocketId : string) : H (option string) :=
  let* q := gets waitingQueue in
  match q with
  | [] => ret None
  | matchedUser :: rest =>
      modify (set_waitingQueue rest) >>
      ret (Some (socketId matchedUser))
  end.

Record Socket : Type := MkSocket {
  id : string;
  header_user_agent : option string
}.

(** [io.on("connection", ...)] up to the registration of the listeners;
    [now] is what [new Date()] reads.  The result is the [user] object the
    listeners of this socket close over. *)
Definition onConnection (socket : Socket) (now : Z) : H User :=
  let userAgent := header_user_agent socket in
  let user := MkUser (id socket) now userAgent in
  userInfo_set (id socket) user >>
  logConnection (id socket) "USER_CONNECTED"
    (JsObject [("userAgent", js_opt_string userAgent)]) >>
  let* peerSocketId := findMatch (id socket) in
  if_truthy peerSocketId
    (fun peerSocketId =>
       peers_set (id socket) peerSocketId >>
       peers_set peerSocketId (id socket) >>
       logConnection (id socket) "MATCH_FOUND"
         (JsObject [("peer", JsString peerSocketId)]) >>
       emit peerSocketId (MatchFound (id socket) true) >>
       emit (id socket) (MatchFound peerSocketId false))
    (modify (fun s => set_waitingQueue (waitingQueue s ++ [user]) s) >>
     let* n := gets (fun s => length (waitingQueue s)) in
     logConnection (id socket) "ADDED_TO_QUEUE"
       (JsObject [("queuePosition", JsNumber (Z.of_nat n))]) >>
     emit (id socket) WaitingForPeer) >>
  ret user.

Definition onSignal (socket_id : string) (payload : JsValue) : H unit :=
  try_catch
    (let* peerSocketId := peers_get socket_id in
     (* [peerSocketId && io.sockets.sockets.has(peerSocketId)] *)
     let* live :=
       if_truthy peerSocketId (fun p => sockets_has p) (ret false) in
     match peerSocketId, live with
     | Some peerSocketId, true =>
         let* type := eval (read_type payload) in
         logConnection socket_id "SIGNAL_RELAY"
           (JsObject [("to", JsString peerSocketId); ("type", type)]) >>
         emit peerSocketId (Signal payload)
     | _, _ =>
         logConnection socket_id "SIGNAL_ERROR"
           (JsObject [("error", JsString "No active peer")]) >>
         emit socket_id (Error "No active peer connection")
     end)
    (fun error =>
       match error with
       | TypeError message =>
           logConnection socket_id "SIGNAL_ERROR"
             (JsObject [("error", JsString message)])
       end).

Definition onFindNext (socket_id : string) (user : User) : H unit :=
  logConnection socket_id "FIND_NEXT_REQUESTED" JsUndefined >>
  let* currentPeer := peers_get socket_id in
  if_truthy currentPeer
    (fun currentPeer =>
       emit currentPeer PeerDisconnected >>
       peers_delete currentPeer >>
       peers_delete socket_id)
    (ret tt) >>
  let* newPeerSocketId := findMatch socket_id in
  if_truthy newPeerSocketId
    (fun newPeerSocketId =>
       peers_set socket_id newPeerSocketId >>
       peers_set newPeerSocketId socket_id >>
       logConnection socket_id "NEW_MATCH_FOUND"
         (JsObject [("peer", JsString newPeerSocketId)]) >>
       emit newPeerSocketId (MatchFound socket_id true) >>
       emit socket_id (MatchFound newPeerSocketId false))
    (modify (fun s => set_waitingQueue (waitingQueue s ++ [user]) s) >>
     let* n := gets (fun s => length (waitingQueue s)) in
     logConnection socket_id "ADDED_TO_QUEUE_AGAIN"
       (JsObject [("queuePosition", JsNumber (Z.of_nat n))]) >>
     emit socket_id WaitingForPeer).

Definition onDisconnect (socket_id : string) (reason : string) : H unit :=
  logConnection socket_id "USER_DISCONNECTED"
    (JsObject [("reason", JsString reason)]) >>
  let* peerSocketId := peers_get socket_id in
  (* [peerSocketId && io.sockets.sockets.has(peerSocketId)] *)
  let* live := if_truthy peerSocketId (fun p => sockets_has p) (ret false) in
  (match peerSocketId, live with
   | Some peerSocketId, true => emit peerSocketId PeerDisconnected
   | _, _ => ret tt
   end) >>
  cleanupUser socket_id.

Definition onError (socket_id : string) (message : string) : H unit :=
  logConnection socket_id "SOCKET_ERROR"
    (JsObject [("error", JsString message)]).

Definition timeout : Z := 5 * 60 * 1000.
Definition sweep_interval : Z := 60000.

Definition isExpired (now : Z) (user : User) : bool :=
  bool_decide (now - joinedAt user > timeout).

(** [array.filter(callback)] with a callback that has effects. *)
Fixpoint filterM {A} (callback : A -> H bool) (l : list A) : H (list A) :=
  match l with
  | [] => ret []
  | x :: rest =>
      let* keep := callback x in
      let* rest' := filterM callback rest in
      ret (if keep : bool then x :: rest' else rest')
  end.

(** The body of the [setInterval] callback; [now] is [Date.now()]. *)
Definition sweep (now : Z) : H unit :=
  let* q := gets waitingQueue in
  let* q' :=
    filterM (fun user =>
      let isExpired := isExpired now user in
      (if isExpired
       then logConnection (socketId user) "QUEUE_TIMEOUT" JsUndefined
       else ret tt) >>
      ret (negb isExpired)) q in
  modify (set_waitingQueue q').

Definition init : State := MkState ∅ [] ∅ ∅.

(** *** The server driven by socket.io

    socket.io adds a socket to [io.sockets.sockets] before it fires
    [connection], and removes it before it fires [disconnect]; the listeners
    of a socket run only between the two.  [listeners] maps every socket
    whose listeners are registered to the [user] they close over. *)

Record World : Type := MkWorld {
  server : State;
  listeners : gmap string User
}.

Inductive Event : Type :=
| Connect (socket : Socket) (now : Z)
| SignalFrom (socket_id : string) (payload : JsValue)
| FindNextFrom (socket_id : string)
| DisconnectOf (socket_id : string) (reason : string)
| ErrorOn (socket_id : string) (message : string)
| Tick (now : Z).

Definition gateway_add (k : string) (s : State) : State :=
  MkState ({[k]} ∪ sockets s) (waitingQueue s) (peers s) (userInfo s).
Definition gateway_remove (k : string) (s : State) : State :=
  MkState (sockets s ∖ {[k]}) (waitingQueue s) (peers s) (userInfo s).

(** A handler that lets an exception escape ends the process: no next
    world. *)
Definition completed {A} (r : Outcome State LogEntry A)
    (k : A -> State -> World) : option (World * list (Effect LogEntry)) :=
  match value r with
  | inr a => Some (k a (final r), trace r)
  | inl _ => None
  end.

Definition step (w : World) (e : Event)
  : option (World * list (Effect LogEntry)) :=
  match e with
  | Connect socket now =>
      if decide (id socket ≠ EmptyString ∧ (id socket ∉ sockets (server w))
                 ∧ listeners w !! id socket = None)
      then completed (onConnection socket now (gateway_add (id socket) (server w)))
             (fun user s => MkWorld s (<[id socket := user]> (listeners w)))
      else None
  | SignalFrom socket_id payload =>
      match listeners w !! socket_id with
      | Some _ => completed (onSignal socket_id payload (server w))
                    (fun _ s => MkWorld s (listeners w))
      | None => None
      end
  | FindNextFrom socket_id =>
      match listeners w !! socket_id with
      | Some user => completed (onFindNext socket_id user (server w))
                       (fun _ s => MkWorld s (listeners w))
      | None => None
      end
  | DisconnectOf socket_id reason =>
      match listeners w !! socket_id with
      | Some _ =>
          completed (onDisconnect socket_id reason
                       (gateway_remove socket_id (server w)))
            (fun _ s => MkWorld s (delete socket_id (listeners w)))
      | None => None
      end
  | ErrorOn socket_id message =>
      match listeners w !! socket_id with
      | Some _ => completed (onError socket_id message (server w))
                    (fun _ s => MkWorld s (listeners w))
      | None => None
      end
  | Tick now =>
      completed (sweep now (server w)) (fun _ s => MkWorld s (listeners w))
  end.

Fixpoint run (w : World) (events : list Event)
  : option (World * list (Effect LogEntry)) :=
  match events with
  | [] => Some (w, [])
  | e :: rest =>
      match step w e with
      | Some (w', t) =>
          match run w' rest with
          | Some (w'', t') => Some (w'', (t ++ t')%list)
          | None => None
          end
      | None => None
      end
  end.

Definition start : World := MkWorld init ∅.

Definition reachable (w : World) : Prop :=
  exists events t, run start events = Some (w, t).

(** What a run from the start leaves to be seen: the queue, the pair table
    as a list, and the messages sent. *)
Definition observe (events : list Event)
  : option (list User * list (string * string) * list (string * Msg)) :=
  match run start events with
  | Some (w, t) =>
      Some (waitingQueue (server w), map_to_list (peers (server w)), emitted t)
  | None => None
  end.

(** Socket ids are generated by socket.io and are never empty. *)
Definition valid_id (k : string) : Prop := k ≠ EmptyString.

(** The three conditions of a connection the data model speaks of. *)
Definition queued (k : string) (s : State) : Prop :=
  exists user, user ∈ waitingQueue s /\ socketId user = k.
Definition is_paired (k : string) (s : State) : Prop :=
  is_Some (peers s !! k).

(** The invariant the reachable worlds are shown to keep: first what it
    says of the server's globals, then of the registered listeners. *)
Record inv (s : State) : Prop := MkInv {
  inv_symmetric : symmetric (peers s);
  inv_disjoint : forall u,
    u ∈ waitingQueue s -> peers s !! socketId u = None;
  inv_short : (length (waitingQueue s) <= 1)%nat;
  inv_peers_open : forall a b, peers s !! a = Some b -> a ∈ sockets s;
  inv_queue_open : forall u, u ∈ waitingQueue s -> socketId u ∈ sockets s;
  inv_valid : forall k, k ∈ sockets s -> valid_id k
}.

Record wf (w : World) : Prop := MkWf {
  wf_inv : inv (server w);
  wf_listeners : forall k,
    k ∈ sockets (server w) <-> is_Some (listeners w !! k);
  wf_closure : forall k u, listeners w !! k = Some u -> socketId u = k;
  wf_userInfo : forall k u,
    listeners w !! k = Some u -> userInfo (server w) !! k = Some u
}.

(** The pure state changes the handlers are made of, used to state what a
    handler leaves behind. *)
Definition unpaired (k : string) (s : State) : State :=
  match peers s !! k with
  | Some p =>
      if truthy (Some p)
      then set_peers (delete k (delete p (peers s))) s
      else s
  | None => s
  end.

Definition paired (k p : string) (s : State) : State :=
  set_peers (<[p := k]> (<[k := p]> (peers s))) s.

Definition enqueued (user : User) (s : State) : State :=
  set_waitingQueue (waitingQueue s ++ [user]) s.

Definition matched (k : string) (user : User) (s : State) : State :=
  match waitingQueue s with
  | [] => enqueued user s
  | h :: rest =>
      if truthy (Some (socketId h))
      then paired k (socketId h) (set_waitingQueue rest s)
      else enqueued user (set_waitingQueue rest s)
  end.

Definition matched_msgs (k : string) (s : State) : list (string * Msg) :=
  match waitingQueue s with
  | [] => [(k, WaitingForPeer)]
  | h :: rest =>
      if truthy (Some (socketId h))
      then [(socketId h, MatchFound k true); (k, MatchFound (socketId h) false)]
      else [(k, WaitingForPeer)]
  end.

(** The partner a signal of [k] is relayed to, if any. *)
Definition live_peer (k : string) (s : State) : option string :=
  match peers s !! k with
  | Some p =>
      if truthy (Some p) && bool_decide (p ∈ sockets s) then Some p else None
  | None => None
  end.

(** What leaving a pairing emits: [find-next] notifies a recorded partner,
    [disconnect] a recorded partner that is still open. *)
Definition left_msgs (k : string) (s : State) : list (string * Msg) :=
  match peers s !! k with
  | Some p => if truthy (Some p) then [(p, PeerDisconnected)] else []
  | None => []
  end.

Definition gone_msgs (k : string) (s : State) : list (string * Msg) :=
  match live_peer k s with
  | Some p => [(p, PeerDisconnected)]
  | None => []
  end.

Definition cleaned (k : string) (s : State) : State :=
  set_userInfo (delete k (userInfo s))
    (set_waitingQueue
       (filter (fun user => socketId user ≠ k) (waitingQueue s))
       (unpaired k s)).

Definition swept (now : Z) (s : State) : State :=
  set_waitingQueue
    (filter (fun user => ¬ (now - joinedAt user > timeout)) (waitingQueue s)) s.

(** *** The [/health] endpoint

    The body of the reply; [timestamp] is what [new Date().toISOString()]
    returns.  [peers.size / 2] is exact: an integer or an integer and a
    half. *)
Record Health : Type := MkHealth {
  health_status : string;
  health_timestamp : string;
  health_activeConnections : nat;
  health_waitingQueue : nat;
  health_activePairs : Q
}.

Definition health (timestamp : string) (s : State) : Health :=
  MkHealth "healthy" timestamp (size (sockets s)) (length (waitingQueue s))
    (Qmake (Z.of_nat (size (peers s))) 2).

(** *** A small run, used to exercise the statements: A connects at time
    1000 and waits, then B connects at time 2000 and is paired with A. *)
Definition socket_A : Socket := MkSocket "A" (Some "Mozilla/5.0").
Definition socket_B : Socket := MkSocket "B" None.
Definition user_A : User := MkUser "A" 1000 (Some "Mozilla/5.0").
Definition user_B : User := MkUser "B" 2000 None.

Definition world_A_waiting : World :=
  MkWorld (MkState {["A"]} [user_A] ∅ {["A" := user_A]}) {["A" := user_A]}.

Definition world_AB_paired : World :=
  MkWorld
    (MkState {["A"; "B"]} [] {["A" := "B"; "B" := "A"]}
       {["A" := user_A; "B" := user_B]})
    {["A" := user_A; "B" := user_B]}.

End Enhanced.

(** ** The basic server, [omegle_server/src/index.ts] *)

Module Basic.

Record State : Type := MkState {
  waitingQueue : list string;
  peers : gmap string string
}.

(** A [console.log] call, by its arguments. *)
Definition LogLine : Type := list JsValue.

Abbreviation H := (M State LogLine).

Definition set_waitingQueue (q : list string) (s : State) : State :=
  MkState q (peers s).
Definition set_peers (p : gmap string string) (s : State) : State :=
  MkState (waitingQueue s) p.

Definition peers_get (k : string) : H (option string) :=
  gets (fun s => peers s !! k).
Definition peers_set (k v : string) : H unit :=
  modify (fun s => set_peers (<[k := v]> (peers s)) s).
Definition peers_delete (k : string) : H unit :=
  modify (fun s => set_peers (delete k (peers s)) s).
Definition emit (to : string) (m : Msg) : H unit := tell (Emit to m).
Definition console_log (args : list JsValue) : H unit := tell (Log args).

(** [array.indexOf(x)]: the first index holding [x], or -1. *)
Fixpoint indexOf (x : string) (l : list string) : Z :=
  match l with
  | [] => -1
  | y :: rest =>
      if decide (y = x) then 0
      else let i := indexOf x rest in if decide (i = -1) then -1 else i + 1
  end.

(** [array.splice(i, 1)] for an index within the array. *)
Definition splice1 (i : Z) (l : list string) : list string :=
  delete (Z.to_nat i) l.

Definition handleDisconnect (socketId : string) : H unit :=
  let* peerSocketId := peers_get socketId in
  if_truthy peerSocketId
    (fun peerSocketId =>
       console_log [JsString ("Notifying " +:+ peerSocketId +:+ " that "
                              +:+ socketId +:+ " disconnected")] >>
       emit peerSocketId PeerDisconnected >>
       peers_delete peerSocketId >>
       peers_delete socketId)
    (let* queueIndex := gets (fun s => indexOf socketId (waitingQueue s)) in
     if decide (queueIndex > -1)
     then
       modify (fun s => set_waitingQueue (splice1 queueIndex (waitingQueue s)) s) >>
       console_log [JsString ("Removed " +:+ socketId +:+ " from waiting queue")]
     else ret tt).

(** The matchmaking block of the [connection] handler.  The [match] is the
    test [waitingQueue.length > 0] together with the [shift()] of its first
    branch. *)
Definition onConnection (socket_id : string) : H unit :=
  console_log [JsString ("User connected: " +:+ socket_id)] >>
  let* q := gets waitingQueue in
  match q with
  | peerSocketId :: rest =>
      modify (set_waitingQueue rest) >>
      peers_set socket_id peerSocketId >>
      peers_set peerSocketId socket_id >>
      console_log [JsString ("Match found: " +:+ socket_id +:+ " and "
                             +:+ peerSocketId)] >>
      emit peerSocketId (MatchFound socket_id true) >>
      emit socket_id (MatchFound peerSocketId false)
  | [] =>
      modify (fun s => set_waitingQueue (waitingQueue s ++ [socket_id]) s) >>
      console_log [JsString ("User " +:+ socket_id
                             +:+ " added to the waiting queue")]
  end.

Definition onSignal (socket_id : string) (payload : JsValue) : H unit :=
  let* peerSocketId := peers_get socket_id in
  if_truthy peerSocketId
    (fun peerSocketId =>
       let* keys := eval (object_keys payload) in
       console_log [JsString ("Relaying signal from " +:+ socket_id +:+ " to "
                              +:+ peerSocketId +:+ ":"); keys] >>
       emit peerSocketId (Signal payload))
    (console_log [JsString ("No peer found for socket " +:+ socket_id)]).

Definition onFindNext (socket_id : string) : H unit :=
  console_log [JsString ("User " +:+ socket_id +:+ " looking for next peer")] >>
  handleDisconnect socket_id >>
  let* q := gets waitingQueue in
  match q with
  | peerSocketId :: rest =>
      modify (set_waitingQueue rest) >>
      peers_set socket_id peerSocketId >>
      peers_set peerSocketId socket_id >>
      console_log [JsString ("New match found: " +:+ socket_id +:+ " and "
                             +:+ peerSocketId)] >>
      emit peerSocketId (MatchFound socket_id true) >>
      emit socket_id (MatchFound peerSocketId false)
  | [] =>
      modify (fun s => set_waitingQueue (waitingQueue s ++ [socket_id]) s) >>
      console_log [JsString ("User " +:+ socket_id
                             +:+ " added back to waiting queue")]
  end.

Definition onDisconnect (socket_id : string) : H unit :=
  console_log [JsString ("User disconnected: " +:+ socket_id)] >>
  handleDisconnect socket_id.

Definition init : State := MkState [] ∅.

(** *** The server driven by socket.io; [connected] holds the ids of the
    sockets whose listeners can still run. *)

Record World : Type := MkWorld {
  server : State;
  connected : gset string
}.

Inductive Event : Type :=
| Connect (socket_id : string)
| SignalFrom (socket_id : string) (payload : JsValue)
| FindNextFrom (socket_id : string)
| DisconnectOf (socket_id : string).

(** No handler of this server catches: an exception ends the process. *)
Definition completed (r : Outcome State LogLine unit) (c : gset string)
  : option (World * list (Effect LogLine)) :=
  match value r with
  | inr _ => Some (MkWorld (final r) c, trace r)
  | inl _ => None
  end.

Definition step (w : World) (e : Event)
  : option (World * list (Effect LogLine)) :=
  match e with
  | Connect socket_id =>
      if decide (socket_id ≠ EmptyString ∧ (socket_id ∉ connected w))
      then completed (onConnection socket_id (server w))
             ({[socket_id]} ∪ connected w)
      else None
  | SignalFrom socket_id payload =>
      if decide (socket_id ∈ connected w)
      then completed (onSignal socket_id payload (server w)) (connected w)
      else None
  | FindNextFrom socket_id =>
      if decide (socket_id ∈ connected w)
      then completed (onFindNext socket_id (server w)) (connected w)
      else None
  | DisconnectOf socket_id =>
      if decide (socket_id ∈ connected w)
      then completed (onDisconnect socket_id (server w))
             (connected w ∖ {[socket_id]})
      else None
  end.

Fixpoint run (w : World) (events : list Event)
  : option (World * list (Effect LogLine)) :=
  match events with
  | [] => Some (w, [])
  | e :: rest =>
      match step w e with
      | Some (w', t) =>
          match run w' rest with
          | Some (w'', t') => Some (w'', (t ++ t')%list)
          | None => None
          end
      | None => None
      end
  end.

Definition start : World := MkWorld init ∅.

Definition reachable (w : World) : Prop :=
  exists events t, run start events = Some (w, t).

Definition queued (k : string) (s : State) : Prop := k ∈ waitingQueue s.
Definition is_paired (k : string) (s : State) : Prop :=
  is_Some (peers s !! k).
(** The invariants of the data model: a symmetric pair table, a queue
    without duplicates, and nobody both queued and paired. *)
Record data_model (s : State) : Prop := MkDataModel {
  dm_symmetric : symmetric (peers s);
  dm_nodup : NoDup (waitingQueue s);
  dm_disjoint : forall k, k ∈ waitingQueue s -> peers s !! k = None
}.

Definition valid_id (k : string) : Prop := k ≠ EmptyString.

Record wf (w : World) : Prop := MkWf {
  wf_data : data_model (server w);
  wf_short : (length (waitingQueue (server w)) <= 1)%nat;
  wf_peers_open : forall a b,
    peers (server w) !! a = Some b -> a ∈ connected w;
  wf_queue_open : forall k, k ∈ waitingQueue (server w) -> k ∈ connected w;
  wf_valid : forall k, k ∈ connected w -> valid_id k
}.

(** The pure state changes the handlers are made of, used to state what a
    handler leaves behind. *)
Definition dequeued (k : string) (s : State) : State :=
  if decide (indexOf k (waitingQueue s) > -1)
  then set_waitingQueue (splice1 (indexOf k (waitingQueue s)) (waitingQueue s)) s
  else s.

Definition released (k : string) (s : State) : State :=
  match peers s !! k with
  | Some p =>
      if truthy (Some p)
      then set_peers (delete k (delete p (peers s))) s
      else dequeued k s
  | None => dequeued k s
  end.

Definition paired (k p : string) (s : State) : State :=
  set_peers (<[p := k]> (<[k := p]> (peers s))) s.

Definition enqueued (k : string) (s : State) : State :=
  set_waitingQueue (waitingQueue s ++ [k]) s.

Definition matched (k : string) (s : State) : State :=
  match waitingQueue s with
  | [] => enqueued k s
  | h :: rest => paired k h (set_waitingQueue rest s)
  end.

Definition left_msgs (k : string) (s : State) : list (string * Msg) :=
  match peers s !! k with
  | Some p => if truthy (Some p) then [(p, PeerDisconnected)] else []
  | None => []
  end.

Definition matched_msgs (k : string) (s : State) : list (string * Msg) :=
  match waitingQueue s with
  | [] => []
  | h :: rest => [(h, MatchFound k true); (k, MatchFound h false)]
  end.

(** What a signal that does not throw emits. *)
Definition signal_msgs (k : string) (payload : JsValue) (s : State)
  : list (string * Msg) :=
  match peers s !! k with
  | Some p => if truthy (Some p) then [(p, Signal payload)] else []
  | None => []
  end.

(** *** A small run, used to exercise the statements: A connects and
    waits, then B connects and is paired with A. *)
Definition world_A_waiting : World := MkWorld (MkState ["A"] ∅) {["A"]}.

Definition world_AB_paired : World :=
  MkWorld (MkState [] {["A" := "B"; "B" := "A"]}) {["A"; "B"]}.

End Basic.

(** ** The two servers side by side *)

(** What the basic server keeps of a state of the enhanced server: the ids
    of the queue and the pair table. *)
Definition erase (s : Enhanced.State) : Basic.State :=
  Basic.MkState (Enhanced.socketId <$> Enhanced.waitingQueue s)
    (Enhanced.peers s).

(** The messages of the enhanced server that the basic server has too:
    all but [waiting-for-peer] and [error]. *)
Fixpoint shared_msgs (l : list (string * Msg)) : list (string * Msg) :=
  match l with
  | [] => []
  | (_, WaitingForPeer) :: rest => shared_msgs rest
  | (_, Error _) :: rest => shared_msgs rest
  | x :: rest => x :: shared_msgs rest
  end.

(** * What each handler leaves behind

    Each handler is run once and for all: its value, the state it leaves
    and the messages it emits are given in closed form, from which the
    invariants and the claims are then derived. *)

Lemma bind_inr {St Lg A B} (m : M St Lg A) (k : A -> M St Lg B) s a :
  value (m s) = inr a ->
  bind m k s =
    MkOutcome (value (k a (final (m s)))) (final (k a (final (m s))))
      (trace (m s) ++ trace (k a (final (m s)))).
Proof. intros Hv. unfold bind. by rewrite Hv. Qed.

Lemma emitted_app {Lg} (t1 t2 : list (Effect Lg)) :
  emitted (t1 ++ t2) = (emitted t1 ++ emitted t2)%list.
Proof.
  induction t1 as [|[to m|l] t1 IH]; cbn; [done| |done]. by rewrite IH.
Qed.

(** ** Enhanced server *)

Section EnhancedHandlers.
Import Enhanced.

(** Unfold the monad and the accessors, nothing else. *)
Ltac run_handler :=
  cbv beta iota zeta delta
    [if_truthy bind try_catch eval throw ret gets modify tell
     peers_get peers_set peers_delete userInfo_set userInfo_delete
     sockets_has emit logConnection value final trace emitted truthy app
     set_waitingQueue set_peers set_userInfo
     sockets waitingQueue peers userInfo paired enqueued andb nullish].

Ltac rew_hyps := repeat match goal with H : _ = _ |- _ => rewrite H end.
Ltac crunch := repeat (progress (run_handler; rew_hyps)).

Lemma enh_onConnection_run socket now s :
  let user := MkUser (id socket) now (header_user_agent socket) in
  let s0 := set_userInfo (<[id socket := user]> (userInfo s)) s in
  let r := onConnection socket now s in
  value r = inr user /\ final r = matched (id socket) user s0
  /\ emitted (trace r) = matched_msgs (id socket) s0.
Proof.
  destruct s as [so q p ui].
  unfold onConnection, findMatch, matched, matched_msgs. run_handler.
  destruct q as [|h rest]; crunch; [done|].
  destruct (bool_decide (socketId h ≠ EmptyString)) eqn:?; crunch; done.
Qed.

Lemma enh_onFindNext_run k user s :
  let r := onFindNext k user s in
  value r = inr tt /\ final r = matched k user (unpaired k s)
  /\ emitted (trace r) = (left_msgs k s ++ matched_msgs k (unpaired k s))%list.
Proof.
  destruct s as [so q p ui].
  unfold onFindNext, findMatch, matched, matched_msgs, unpaired, left_msgs.
  run_handler.
  destruct (p !! k) as [c|] eqn:?; crunch;
    [destruct (bool_decide (c ≠ EmptyString)) eqn:?; crunch|];
    (destruct q as [|h rest]; crunch; [done|]);
    destruct (bool_decide (socketId h ≠ EmptyString)) eqn:?; crunch; done.
Qed.

Lemma enh_onDisconnect_run k reason s :
  let r := onDisconnect k reason s in
  value r = inr tt /\ final r = cleaned k s /\ emitted (trace r) = gone_msgs k s.
Proof.
  destruct s as [so q p ui].
  unfold onDisconnect, cleanupUser, cleaned, unpaired, gone_msgs, live_peer.
  run_handler.
  destruct (p !! k) as [c|] eqn:?; crunch; [|done].
  destruct (bool_decide (c ≠ EmptyString)) eqn:?; crunch; [|done].
  destruct (bool_decide (c ∈ so)) eqn:?; crunch; done.
Qed.

Lemma enh_onSignal_run k payload s :
  let r := onSignal k payload s in
  value r = inr tt /\ final r = s
  /\ emitted (trace r) =
       match live_peer k s with
       | Some p => if nullish payload then [] else [(p, Signal payload)]
       | None => [(k, Error "No active peer connection")]
       end.
Proof.
  destruct s as [so q p ui]. unfold onSignal, live_peer. run_handler.
  destruct (p !! k) as [c|] eqn:?; crunch; [|done].
  destruct (bool_decide (c ≠ EmptyString)) eqn:?; crunch; [|done].
  destruct (bool_decide (c ∈ so)) eqn:?; crunch; [|done].
  destruct payload; cbv beta iota delta [read_type]; crunch; done.
Qed.

Lemma enh_onSignal_trace k payload s :
  trace (onSignal k payload s) =
    match live_peer k s with
    | Some p =>
        match read_type payload with
        | inr type =>
            [Log (MkLog k "SIGNAL_RELAY"
                    (JsObject [("to", JsString p); ("type", type)]));
             Emit p (Signal payload)]
        | inl (TypeError message) =>
            [Log (MkLog k "SIGNAL_ERROR"
                    (JsObject [("error", JsString message)]))]
        end
    | None =>
        [Log (MkLog k "SIGNAL_ERROR"
                (JsObject [("error", JsString "No active peer")]));
         Emit k (Error "No active peer connection")]
    end.
Proof.
  destruct s as [so q p ui]. unfold onSignal, live_peer. run_handler.
  destruct (p !! k) as [c|] eqn:?; crunch; [|done].
  destruct (bool_decide (c ≠ EmptyString)) eqn:?; crunch; [|done].
  destruct (bool_decide (c ∈ so)) eqn:?; crunch; [|done].
  destruct payload; cbv beta iota delta [read_type]; crunch; done.
Qed.

Lemma enh_filterM_quiet {A} (callback : A -> H bool) (P : A -> Prop)
    `{!forall x, Decision (P x)} q s :
  (forall x s', value (callback x s') = inr (bool_decide (P x))
                /\ final (callback x s') = s'
                /\ emitted (trace (callback x s')) = []) ->
  value (filterM callback q s) = inr (filter P q)
  /\ final (filterM callback q s) = s
  /\ emitted (trace (filterM callback q s)) = [].
Proof.
  intros Hcb. induction q as [|x q (Hv & Hf & He)]; [done|].
  destruct (Hcb x s) as (Hv' & Hf' & He').
  cbv beta iota delta [filterM]; fold (@filterM A).
  rewrite (bind_inr _ _ _ _ Hv'). cbn [value final trace].
  rewrite Hf', (bind_inr _ _ _ _ Hv). unfold ret. cbn [value final trace].
  rewrite Hf, !emitted_app, He', He, filter_cons.
  destruct (decide (P x)).
  - by rewrite bool_decide_eq_true_2.
  - by rewrite bool_decide_eq_false_2.
Qed.

Lemma enh_filterM_sweep now q s :
  let r := filterM (fun user =>
      let isExpired := isExpired now user in
      (if isExpired
       then logConnection (socketId user) "QUEUE_TIMEOUT" JsUndefined
       else ret tt) >> ret (negb isExpired))%handler q s in
  value r = inr (filter (fun user => ¬ (now - joinedAt user > timeout)) q)
  /\ final r = s /\ emitted (trace r) = [].
Proof.
  apply enh_filterM_quiet. intros u s'. unfold isExpired.
  destruct (decide (now - joinedAt u > timeout)).
  - rewrite bool_decide_eq_true_2, bool_decide_eq_false_2 by auto. done.
  - rewrite bool_decide_eq_false_2, bool_decide_eq_true_2 by auto. done.
Qed.

Lemma enh_sweep_run now s :
  let r := sweep now s in
  value r = inr tt /\ final r = swept now s /\ emitted (trace r) = [].
Proof.
  destruct (enh_filterM_sweep now (waitingQueue s) s) as (Hv & Hf & He).
  cbv zeta in Hv, Hf, He. cbv zeta. unfold sweep, swept.
  rewrite (bind_inr _ _ s (waitingQueue s)) by done.
  unfold gets. cbn [value final trace].
  rewrite (bind_inr _ _ _ _ Hv). unfold modify. cbn [value final trace app].
  rewrite Hf, emitted_app, He. done.
Qed.

End EnhancedHandlers.

(** ** Basic server *)

Section BasicHandlers.
Import Basic.

Ltac run_handler :=
  cbv beta iota zeta delta
    [if_truthy bind eval throw ret gets modify tell
     peers_get peers_set peers_delete emit console_log
     value final trace truthy set_waitingQueue set_peers
     waitingQueue peers paired enqueued nullish].

Ltac rew_hyps := repeat match goal with H : _ = _ |- _ => rewrite H end.
Ltac crunch :=
  repeat (progress (run_handler; cbn [emitted app]; rewrite ?emitted_app;
                    rew_hyps)).

Lemma bas_handleDisconnect_run k s :
  let r := handleDisconnect k s in
  value r = inr tt /\ final r = released k s /\ emitted (trace r) = left_msgs k s.
Proof.
  destruct s as [q p]. unfold handleDisconnect, released, left_msgs, dequeued.
  crunch.
  destruct (p !! k) as [c|] eqn:?; crunch;
    [destruct (bool_decide (c ≠ EmptyString)) eqn:?; crunch; [done|]|];
    destruct (decide (indexOf k q > -1)); crunch; done.
Qed.

Lemma bas_onConnection_run k s :
  let r := onConnection k s in
  value r = inr tt /\ final r = matched k s
  /\ emitted (trace r) = matched_msgs k s.
Proof.
  destruct s as [q p]. unfold onConnection, matched, matched_msgs.
  crunch. destruct q; crunch; done.
Qed.

Lemma bas_onFindNext_run k s :
  let r := onFindNext k s in
  value r = inr tt /\ final r = matched k (released k s)
  /\ emitted (trace r) = (left_msgs k s ++ matched_msgs k (released k s))%list.
Proof.
  pose proof (bas_handleDisconnect_run k s) as Hd. cbv zeta in Hd |- *.
  destruct (handleDisconnect k s) as [v f t] eqn:E.
  cbn [value final trace] in Hd. destruct Hd as (-> & -> & He).
  unfold onFindNext. crunch.
  destruct (released k s) as [q p]. unfold matched, matched_msgs. crunch.
  destruct q; crunch; done.
Qed.

Lemma bas_onDisconnect_run k s :
  let r := onDisconnect k s in
  value r = inr tt /\ final r = released k s /\ emitted (trace r) = left_msgs k s.
Proof.
  pose proof (bas_handleDisconnect_run k s) as Hd. cbv zeta in Hd |- *.
  destruct (handleDisconnect k s) as [v f t] eqn:E.
  cbn [value final trace] in Hd. destruct Hd as (-> & -> & He).
  unfold onDisconnect. crunch. done.
Qed.

Lemma bas_onSignal_run k payload s :
  let r := onSignal k payload s in
  final r = s
  /\ match peers s !! k with
     | Some p =>
         if truthy (Some p)
         then if nullish payload
              then (exists e, value r = inl e) /\ emitted (trace r) = []
              else value r = inr tt /\ emitted (trace r) = [(p, Signal payload)]
         else value r = inr tt /\ emitted (trace r) = []
     | None => value r = inr tt /\ emitted (trace r) = []
     end.
Proof.
  destruct s as [q p]. unfold onSignal. crunch.
  destruct (p !! k) as [c|] eqn:?; crunch; [|done].
  destruct (bool_decide (c ≠ EmptyString)) eqn:?; crunch; [|done].
  destruct payload; cbv beta iota delta [object_keys]; crunch; eauto.
Qed.

End BasicHandlers.

(** * Symmetric pair tables *)

Lemma symmetric_unpair (m : gmap string string) k p :
  symmetric m -> m !! k = Some p -> symmetric (delete k (delete p m)).
Proof.
  intros Hs Hk a b Hab.
  apply lookup_delete_Some in Hab as [Hak Hab].
  apply lookup_delete_Some in Hab as [Hap Hab].
  assert (b ≠ k) by (intros ->; apply Hs in Hab; congruence).
  assert (b ≠ p) by (intros ->; apply Hs in Hk; apply Hs in Hab; congruence).
  rewrite !lookup_delete_ne by done. by apply Hs.
Qed.

Lemma symmetric_pair (m : gmap string string) k p :
  symmetric m -> m !! k = None -> m !! p = None ->
  symmetric (<[p := k]> (<[k := p]> m)).
Proof.
  intros Hs Hk Hp a b Hab.
  destruct (decide (a = p)) as [->|Hap].
  - rewrite lookup_insert_eq in Hab. injection Hab as <-.
    destruct (decide (p = k)) as [->|Hpk].
    + by rewrite lookup_insert_eq.
    + rewrite lookup_insert_ne by done. by rewrite lookup_insert_eq.
  - rewrite lookup_insert_ne in Hab by done.
    destruct (decide (a = k)) as [->|Hak].
    + rewrite lookup_insert_eq in Hab. injection Hab as <-.
      by rewrite lookup_insert_eq.
    + rewrite lookup_insert_ne in Hab by done.
      pose proof (Hs _ _ Hab) as Hba.
      rewrite !lookup_insert_ne by congruence. done.
Qed.

(** * The invariant of the enhanced server *)

Section EnhancedInvariant.
Import Enhanced.

Lemma enh_inv_partner_valid s a b :
  inv s -> peers s !! a = Some b -> truthy (Some b) = true.
Proof.
  intros Hi Hab. cbn. apply bool_decide_eq_true_2.
  apply (inv_valid s Hi), (inv_peers_open s Hi b a), (inv_symmetric s Hi), Hab.
Qed.

Lemma enh_unpaired_lookup s k :
  inv s -> peers (unpaired k s) !! k = None.
Proof.
  intros Hi. unfold unpaired.
  destruct (peers s !! k) as [p|] eqn:Hk; [|done].
  rewrite (enh_inv_partner_valid s k p Hi Hk). cbn. by rewrite lookup_delete_eq.
Qed.

Lemma enh_unpaired_sub s k a b :
  peers (unpaired k s) !! a = Some b -> peers s !! a = Some b.
Proof.
  unfold unpaired. destruct (peers s !! k) as [p|]; [|done].
  destruct (truthy (Some p)); [|done]. cbn.
  intros [_ [_ H]%lookup_delete_Some]%lookup_delete_Some. done.
Qed.

Lemma enh_inv_unpaired s k : inv s -> inv (unpaired k s).
Proof.
  intros Hi. pose proof Hi as [Hs Hd Hl Hpo Hqo Hv].
  assert (Hq : waitingQueue (unpaired k s) = waitingQueue s).
  { unfold unpaired. destruct (peers s !! k) as [p|]; [|done].
    by destruct (truthy (Some p)). }
  assert (Hso : sockets (unpaired k s) = sockets s).
  { unfold unpaired. destruct (peers s !! k) as [p|]; [|done].
    by destruct (truthy (Some p)). }
  split; rewrite ?Hq, ?Hso; try done.
  - unfold unpaired. destruct (peers s !! k) as [p|] eqn:Hk; [|done].
    destruct (truthy (Some p)); [|done]. cbn.
    by apply symmetric_unpair.
  - intros u Hu. specialize (Hd u Hu).
    destruct (peers (unpaired k s) !! socketId u) as [b|] eqn:Hb; [|done].
    apply enh_unpaired_sub in Hb. congruence.
  - intros a b Hab. apply enh_unpaired_sub in Hab. eauto.
Qed.

Lemma enh_inv_matched s k user :
  inv s -> k ∈ sockets s -> peers s !! k = None -> socketId user = k ->
  inv (matched k user s).
Proof.
  intros [Hs Hd Hl Hpo Hqo Hv] Hk Hpk Hu. unfold matched.
  destruct (waitingQueue s) as [|h rest] eqn:Hq.
  - destruct s as [so q p ui]. cbn in *. subst q.
    split; cbn; try done.
    + intros u [->|[]%elem_of_nil]%elem_of_cons. by rewrite Hu.
    + intros u [->|[]%elem_of_nil]%elem_of_cons. by rewrite Hu.
  - assert (rest = []) as -> by (destruct rest; [done | cbn in Hl; lia]).
    assert (Hh : h ∈ [h]) by by left.
    pose proof (Hd h Hh) as Hph. pose proof (Hqo h Hh) as Hho.
    assert (truthy (Some (socketId h)) = true) as ->.
    { apply bool_decide_eq_true_2. by apply Hv. }
    destruct s as [so q p ui]. cbn in *. subst q.
    split; cbn.
    + by apply symmetric_pair.
    + by intros u []%elem_of_nil.
    + lia.
    + intros a b Hab. destruct (decide (a = socketId h)) as [->|]; [done|].
      rewrite lookup_insert_ne in Hab by done.
      destruct (decide (a = k)) as [->|]; [done|].
      rewrite lookup_insert_ne in Hab by done. eauto.
    + by intros u []%elem_of_nil.
    + done.
Qed.

Lemma enh_matched_sockets s k user : sockets (matched k user s) = sockets s.
Proof.
  unfold matched. destruct (waitingQueue s) as [|h rest]; [done|].
  by destruct (truthy (Some (socketId h))).
Qed.

Lemma enh_matched_userInfo s k user : userInfo (matched k user s) = userInfo s.
Proof.
  unfold matched. destruct (waitingQueue s) as [|h rest]; [done|].
  by destruct (truthy (Some (socketId h))).
Qed.

Lemma enh_unpaired_sockets s k : sockets (unpaired k s) = sockets s.
Proof.
  unfold unpaired. destruct (peers s !! k) as [p|]; [|done].
  by destruct (truthy (Some p)).
Qed.

Lemma enh_unpaired_userInfo s k : userInfo (unpaired k s) = userInfo s.
Proof.
  unfold unpaired. destruct (peers s !! k) as [p|]; [|done].
  by destruct (truthy (Some p)).
Qed.

Lemma enh_unpaired_queue s k : waitingQueue (unpaired k s) = waitingQueue s.
Proof.
  unfold unpaired. destruct (peers s !! k) as [p|]; [|done].
  by destruct (truthy (Some p)).
Qed.

Lemma enh_inv_cleaned s k : inv s -> inv (cleaned k (gateway_remove k s)).
Proof.
  intros Hi.
  assert (Hu : unpaired k (gateway_remove k s)
               = gateway_remove k (unpaired k s)).
  { destruct s as [so q p ui]. unfold unpaired, gateway_remove. cbn.
    destruct (p !! k) as [c|]; [|done]. by destruct (bool_decide _). }
  pose proof (enh_unpaired_lookup s k Hi) as Hk.
  apply (enh_inv_unpaired s k) in Hi. unfold cleaned. rewrite Hu.
  replace (waitingQueue (gateway_remove k s))
    with (waitingQueue (unpaired k s)) by (by rewrite enh_unpaired_queue).
  destruct (unpaired k s) as [so q p ui]. destruct Hi as [Hs Hd Hl Hpo Hqo Hv].
  cbn in *. split; cbn.
  - done.
  - intros u [_ Hu']%list_elem_of_filter. eauto.
  - eapply Nat.le_trans; [apply length_filter | done].
  - intros a b Hab. apply elem_of_difference; split; [eauto|].
    intros ->%elem_of_singleton. congruence.
  - intros u [Hne Hu']%list_elem_of_filter.
    apply elem_of_difference; split; [eauto|]. by intros ?%elem_of_singleton.
  - intros a [Ha _]%elem_of_difference. eauto.
Qed.

Lemma enh_inv_swept s now : inv s -> inv (swept now s).
Proof.
  intros [Hs Hd Hl Hpo Hqo Hv]. destruct s as [so q p ui]. cbn in *.
  split; cbn; try done.
  - intros u [_ Hu]%list_elem_of_filter. eauto.
  - eapply Nat.le_trans; [apply length_filter | done].
  - intros u [_ Hu]%list_elem_of_filter. eauto.
Qed.

End EnhancedInvariant.

(** ** Every step of the enhanced server keeps the invariant *)

Section EnhancedReachable.
Import Enhanced.

Lemma enh_inv_gateway_add s k ui :
  inv s -> valid_id k -> inv (set_userInfo ui (gateway_add k s)).
Proof.
  intros [Hs Hd Hlis Hpo Hqo Hv] Hk. destruct s as [so q p ui0]. cbn in *.
  split; cbn; try done.
  - intros a b Hab. apply elem_of_union_r. eauto.
  - intros u Hu. apply elem_of_union_r. eauto.
  - intros a [->%elem_of_singleton|Ha]%elem_of_union; eauto.
Qed.

Lemma enh_wf_start : wf start.
Proof.
  split; [split|..]; cbn; try done.
  - lia.
  - by intros u ?%elem_of_nil.
  - intros k. rewrite lookup_empty. split; [set_solver | by intros []].
Qed.

Lemma enh_step_wf w e w' t : wf w -> step w e = Some (w', t) -> wf w'.
Proof.
  intros [Hi Hlis Hc Hu] Hstep. destruct w as [s ls]. cbn in *.
  destruct e as [socket now|k payload|k|k reason|k message|now];
    unfold step in Hstep; cbn [server listeners] in Hstep.
  - (* connection *)
    destruct (decide _) as [(Hid & Hfresh & Hnone)|]; [|done].
    destruct (enh_onConnection_run socket now (gateway_add (id socket) s))
      as (Hv & Hf & _).
    unfold completed in Hstep. rewrite Hv, Hf in Hstep.
    injection Hstep as <- <-.
    set (user := MkUser (id socket) now (header_user_agent socket)).
    assert (Hpk : peers s !! id socket = None).
    { destruct (peers s !! id socket) eqn:E; [|done].
      destruct Hfresh. eapply inv_peers_open; eauto. }
    split; cbn.
    + apply enh_inv_matched; [by apply enh_inv_gateway_add | | done | done].
      cbn. set_solver.
    + intros k. rewrite enh_matched_sockets. cbn.
      rewrite elem_of_union, elem_of_singleton, Hlis.
      destruct (decide (k = id socket)) as [->|].
      * rewrite lookup_insert_eq. naive_solver.
      * rewrite lookup_insert_ne by done. naive_solver.
    + intros k u. destruct (decide (k = id socket)) as [->|].
      * rewrite lookup_insert_eq. by intros [= <-].
      * rewrite lookup_insert_ne by done. apply Hc.
    + intros k u. rewrite enh_matched_userInfo. cbn.
      destruct (decide (k = id socket)) as [->|].
      * by rewrite !lookup_insert_eq.
      * rewrite !lookup_insert_ne by done. apply Hu.
  - (* signal *)
    destruct (ls !! k) as [user|] eqn:Hk; [|done].
    destruct (enh_onSignal_run k payload s) as (Hv & Hf & _).
    unfold completed in Hstep. rewrite Hv, Hf in Hstep.
    injection Hstep as <- <-. by split.
  - (* find-next *)
    destruct (ls !! k) as [user|] eqn:Hk; [|done].
    destruct (enh_onFindNext_run k user s) as (Hv & Hf & _).
    unfold completed in Hstep. rewrite Hv, Hf in Hstep.
    injection Hstep as <- <-.
    split; cbn.
    + apply enh_inv_matched.
      * by apply enh_inv_unpaired.
      * rewrite enh_unpaired_sockets. apply Hlis. eauto.
      * by apply enh_unpaired_lookup.
      * eauto.
    + intros k'. by rewrite enh_matched_sockets, enh_unpaired_sockets.
    + done.
    + intros k' u. rewrite enh_matched_userInfo, enh_unpaired_userInfo. apply Hu.
  - (* disconnect *)
    destruct (ls !! k) as [user|] eqn:Hk; [|done].
    destruct (enh_onDisconnect_run k reason (gateway_remove k s)) as (Hv & Hf & _).
    unfold completed in Hstep. rewrite Hv, Hf in Hstep.
    injection Hstep as <- <-.
    split; cbn.
    + by apply enh_inv_cleaned.
    + intros k'. unfold cleaned. cbn. rewrite enh_unpaired_sockets. cbn.
      rewrite elem_of_difference, elem_of_singleton, Hlis.
      destruct (decide (k' = k)) as [->|].
      * rewrite lookup_delete_eq. split; [naive_solver | by intros []].
      * rewrite lookup_delete_ne by done. naive_solver.
    + intros k' u [_ H]%lookup_delete_Some. eauto.
    + intros k' u [Hne H]%lookup_delete_Some. unfold cleaned. cbn.
      rewrite lookup_delete_ne by done. eauto.
  - (* error *)
    destruct (ls !! k) as [user|] eqn:Hk; [|done].
    unfold completed, onError, logConnection, tell in Hstep.
    cbn [value final trace] in Hstep. injection Hstep as <- <-. by split.
  - (* timer *)
    destruct (enh_sweep_run now s) as (Hv & Hf & _).
    unfold completed in Hstep. rewrite Hv, Hf in Hstep.
    injection Hstep as <- <-.
    split; cbn; [by apply enh_inv_swept | done..].
Qed.

Lemma enh_run_wf events : forall w w' t,
  wf w -> run w events = Some (w', t) -> wf w'.
Proof.
  induction events as [|e events IH]; intros w w' t Hw Hrun; cbn in Hrun.
  - by injection Hrun as <- <-.
  - destruct (step w e) as [[w1 t1]|] eqn:Hstep; [|done].
    destruct (run w1 events) as [[w2 t2]|] eqn:Hrest; [|done].
    injection Hrun as <- <-. eapply IH; [|done]. by eapply enh_step_wf.
Qed.

Lemma enh_reachable_wf w : reachable w -> wf w.
Proof.
  intros (events & t & Hrun). eapply enh_run_wf; [apply enh_wf_start | done].
Qed.

End EnhancedReachable.

(** * The invariant of the basic server *)

Section BasicInvariant.
Import Basic.

(** [indexOf] and [splice] as the disconnect handler uses them. *)
Lemma indexOf_bounds x l : -1 <= indexOf x l < Z.of_nat (length l).
Proof.
  induction l as [|y l IH]; cbn; [lia|].
  destruct (decide (y = x)); [lia|]. destruct (decide (indexOf x l = -1)); lia.
Qed.

Lemma indexOf_not_elem x l : x ∉ l -> indexOf x l = -1.
Proof.
  induction l as [|y l IH]; cbn; [done|].
  intros [Hne Hl]%not_elem_of_cons.
  destruct (decide (y = x)); [congruence|]. by rewrite IH.
Qed.

Lemma indexOf_elem x l : x ∈ l -> indexOf x l > -1.
Proof.
  induction l as [|y l IH]; cbn; [by intros ?%elem_of_nil|].
  intros [->|Hin]%elem_of_cons.
  - rewrite decide_True by done. lia.
  - destruct (decide (y = x)); [lia|]. specialize (IH Hin).
    destruct (decide (indexOf x l = -1)); lia.
Qed.

Lemma indexOf_lookup x l :
  indexOf x l > -1 -> l !! Z.to_nat (indexOf x l) = Some x.
Proof.
  induction l as [|y l IH]; cbn; [lia|].
  destruct (decide (y = x)) as [->|]; [done|].
  destruct (decide (indexOf x l = -1)); [lia|]. intros _.
  pose proof (indexOf_bounds x l).
  replace (Z.to_nat (indexOf x l + 1)) with (S (Z.to_nat (indexOf x l))) by lia.
  cbn. apply IH. lia.
Qed.

Lemma splice1_sublist i l : splice1 i l `sublist_of` l.
Proof. apply sublist_delete. Qed.

Lemma splice1_indexOf_not_elem x l :
  NoDup l -> indexOf x l > -1 -> x ∉ splice1 (indexOf x l) l.
Proof.
  intros Hnd Hi. pose proof (indexOf_lookup x l Hi) as Hx.
  unfold splice1. rewrite delete_take_drop.
  rewrite <- (take_drop_middle l _ x Hx) in Hnd.
  apply NoDup_app in Hnd as (_ & Hl & [Hr _]%NoDup_cons).
  intros [Hin|Hin]%elem_of_app; [by eapply Hl; [done | left] | done].
Qed.

Lemma bas_dequeued_peers k s : peers (dequeued k s) = peers s.
Proof. unfold dequeued. by destruct (decide _). Qed.

Lemma bas_dequeued_sublist k s :
  waitingQueue (dequeued k s) `sublist_of` waitingQueue s.
Proof.
  unfold dequeued. destruct (decide _); [apply splice1_sublist | done].
Qed.

Lemma bas_dequeued_not_elem k s :
  NoDup (waitingQueue s) -> k ∉ waitingQueue (dequeued k s).
Proof.
  intros Hnd. unfold dequeued. destruct (decide _) as [Hi|Hi]; cbn.
  - by apply splice1_indexOf_not_elem.
  - intros Hin%indexOf_elem. lia.
Qed.

Lemma bas_released_sub k s a b :
  peers (released k s) !! a = Some b -> peers s !! a = Some b.
Proof.
  unfold released. destruct (peers s !! k) as [p|];
    [destruct (truthy (Some p))|]; rewrite ?bas_dequeued_peers; try done.
  cbn. by intros [_ [_ H]%lookup_delete_Some]%lookup_delete_Some.
Qed.

Lemma bas_released_sublist k s :
  waitingQueue (released k s) `sublist_of` waitingQueue s.
Proof.
  unfold released. destruct (peers s !! k) as [p|];
    [destruct (truthy (Some p))|]; try apply bas_dequeued_sublist. done.
Qed.

Lemma bas_data_model_released k s : data_model s -> data_model (released k s).
Proof.
  intros [Hs Hn Hd]. split.
  - unfold released. destruct (peers s !! k) as [p|] eqn:Hk;
      [destruct (truthy (Some p))|]; rewrite ?bas_dequeued_peers; try done.
    cbn. by apply symmetric_unpair.
  - eapply sublist_NoDup; [done | apply bas_released_sublist].
  - intros x Hx.
    assert (Hx' : x ∈ waitingQueue s).
    { eapply elem_of_sublist; [done | apply bas_released_sublist]. }
    destruct (peers (released k s) !! x) as [b|] eqn:Hb; [|done].
    apply bas_released_sub in Hb. rewrite Hd in Hb; done.
Qed.

(** After leaving, a connection whose partner was valid is nowhere. *)
Lemma bas_released_absent k s :
  data_model s ->
  (forall p, peers s !! k = Some p -> valid_id p) ->
  peers (released k s) !! k = None /\ k ∉ waitingQueue (released k s).
Proof.
  intros [Hs Hn Hd] Hv. unfold released.
  destruct (peers s !! k) as [p|] eqn:Hk.
  - assert (truthy (Some p) = true) as ->
      by (apply bool_decide_eq_true_2, Hv; done).
    cbn. rewrite lookup_delete_eq. split; [done|].
    intros Hin. apply Hd in Hin. congruence.
  - rewrite bas_dequeued_peers. split; [done | by apply bas_dequeued_not_elem].
Qed.

End BasicInvariant.

(** ** Every step of the basic server keeps the invariant *)

Section BasicReachable.
Import Basic.

Lemma bas_wf_partner_valid w a b :
  wf w -> peers (server w) !! a = Some b -> valid_id b.
Proof.
  intros [[Hs _ _] _ Hpo _ Hv] Hab.
  eapply Hv, Hpo, Hs, Hab.
Qed.

Lemma bas_wf_released s c k : wf (MkWorld s c) -> wf (MkWorld (released k s) c).
Proof.
  intros [Hdm Hsh Hpo Hqo Hv]. cbn in *. split; cbn.
  - by apply bas_data_model_released.
  - eapply Nat.le_trans; [|done]. apply sublist_length, bas_released_sublist.
  - intros a b Hab%bas_released_sub. eauto.
  - intros x Hx. eapply Hqo, elem_of_sublist; [done | apply bas_released_sublist].
  - done.
Qed.

Lemma bas_wf_matched s c k :
  wf (MkWorld s c) -> k ∈ c -> peers s !! k = None -> k ∉ waitingQueue s ->
  wf (MkWorld (matched k s) c).
Proof.
  intros [[Hs Hn Hd] Hsh Hpo Hqo Hv] Hk Hpk Hqk. cbn in *. unfold matched.
  destruct s as [q p]. cbn in *. destruct q as [|h rest]; cbn.
  - split; [split|..]; cbn; try done.
    + apply NoDup_singleton.
    + by intros x ->%list_elem_of_singleton.
    + by intros x ->%list_elem_of_singleton.
  - assert (rest = []) as -> by (destruct rest; [done | cbn in Hsh; lia]).
    assert (Hh : h ∈ [h]) by by left.
    split; [split|..]; cbn; try done.
    + apply symmetric_pair; auto.
    + apply NoDup_nil_2.
    + by intros x ?%elem_of_nil.
    + lia.
    + intros a b Hab. destruct (decide (a = h)) as [->|]; [auto|].
      rewrite lookup_insert_ne in Hab by done.
      destruct (decide (a = k)) as [->|]; [done|].
      rewrite lookup_insert_ne in Hab by done. eauto.
    + by intros x ?%elem_of_nil.
Qed.

Lemma bas_wf_start : wf start.
Proof.
  split; [split|..]; cbn; try done.
  - apply NoDup_nil_2.
  - lia.
  - by intros x ?%elem_of_nil.
Qed.

Lemma bas_step_wf w e w' t : wf w -> step w e = Some (w', t) -> wf w'.
Proof.
  intros Hw Hstep. destruct w as [s c].
  destruct e as [k|k payload|k|k]; unfold step in Hstep;
    cbn [server connected] in Hstep;
    (destruct (decide _) as [Hg|]; [|done]); unfold completed in Hstep.
  - (* connection *)
    destruct Hg as [Hk Hfresh].
    destruct (bas_onConnection_run k s) as (Hv & Hf & _).
    rewrite Hv, Hf in Hstep. injection Hstep as <- <-.
    pose proof Hw as [Hdm Hsh Hpo Hqo Hval]. cbn in *.
    apply bas_wf_matched.
    + split; cbn; try done.
      * intros a b Hab. apply elem_of_union_r. eauto.
      * intros x Hx. apply elem_of_union_r. eauto.
      * intros x [->%elem_of_singleton|Hx]%elem_of_union; eauto.
    + apply elem_of_union_l. by apply elem_of_singleton.
    + destruct (peers s !! k) eqn:E; [|done]. destruct Hfresh. eauto.
    + intros Hin. apply Hfresh. eauto.
  - (* signal *)
    destruct (bas_onSignal_run k payload s) as (Hf & _).
    destruct (value (onSignal k payload s)); [done|].
    rewrite Hf in Hstep. by injection Hstep as <- <-.
  - (* find-next *)
    destruct (bas_onFindNext_run k s) as (Hv & Hf & _).
    rewrite Hv, Hf in Hstep. injection Hstep as <- <-.
    destruct (bas_released_absent k s) as [Hpk Hqk].
    { apply Hw. }
    { intros p. apply (bas_wf_partner_valid _ _ _ Hw). }
    apply bas_wf_matched; [by apply bas_wf_released | done..].
  - (* disconnect *)
    destruct (bas_onDisconnect_run k s) as (Hv & Hf & _).
    rewrite Hv, Hf in Hstep. injection Hstep as <- <-.
    destruct (bas_released_absent k s) as [Hpk Hqk].
    { apply Hw. }
    { intros p. apply (bas_wf_partner_valid _ _ _ Hw). }
    destruct (bas_wf_released s c k Hw) as [Hdm Hsh Hpo Hqo Hval]. cbn in *.
    split; cbn; try done.
    + intros a b Hab. apply elem_of_difference; split; [eauto|].
      intros ->%elem_of_singleton. congruence.
    + intros x Hx. apply elem_of_difference; split; [eauto|].
      intros ->%elem_of_singleton. done.
    + intros x [Hx _]%elem_of_difference. eauto.
Qed.

Lemma bas_run_wf events : forall w w' t,
  wf w -> run w events = Some (w', t) -> wf w'.
Proof.
  induction events as [|e events IH]; intros w w' t Hw Hrun; cbn in Hrun.
  - by injection Hrun as <- <-.
  - destruct (step w e) as [[w1 t1]|] eqn:Hstep; [|done].
    destruct (run w1 events) as [[w2 t2]|] eqn:Hrest; [|done].
    injection Hrun as <- <-. eapply IH; [|done]. by eapply bas_step_wf.
Qed.

Lemma bas_reachable_wf w : reachable w -> wf w.
Proof.
  intros (events & t & Hrun). eapply bas_run_wf; [apply bas_wf_start | done].
Qed.

End BasicReachable.

(** * Auxiliary facts for the claims *)

Lemma pair_lookup_l (m : gmap string string) k p :
  <[p := k]> (<[k := p]> m) !! k = Some p.
Proof.
  destruct (decide (p = k)) as [->|].
  - by rewrite lookup_insert_eq.
  - rewrite lookup_insert_ne by done. by rewrite lookup_insert_eq.
Qed.

(** ** Reachable sample worlds *)

Lemma enh_reachable_A_waiting : Enhanced.reachable Enhanced.world_A_waiting.
Proof.
  exists [Enhanced.Connect Enhanced.socket_A 1000]. eexists.
  vm_compute. reflexivity.
Qed.

Lemma enh_reachable_AB_paired : Enhanced.reachable Enhanced.world_AB_paired.
Proof.
  exists [Enhanced.Connect Enhanced.socket_A 1000;
          Enhanced.Connect Enhanced.socket_B 2000]. eexists.
  vm_compute. reflexivity.
Qed.

Lemma bas_reachable_A_waiting : Basic.reachable Basic.world_A_waiting.
Proof. exists [Basic.Connect "A"]. eexists. vm_compute. reflexivity. Qed.

Lemma bas_reachable_AB_paired : Basic.reachable Basic.world_AB_paired.
Proof.
  exists [Basic.Connect "A"; Basic.Connect "B"]. eexists.
  vm_compute. reflexivity.
Qed.

(** ** Disconnecting twice *)

Lemma enh_cleaned_idem k s :
  Enhanced.cleaned k (Enhanced.cleaned k s) = Enhanced.cleaned k s
  /\ Enhanced.gone_msgs k (Enhanced.cleaned k s) = [].
Proof.
  destruct s as [so q p ui].
  unfold Enhanced.cleaned, Enhanced.gone_msgs, Enhanced.live_peer,
    Enhanced.unpaired. cbn.
  destruct (p !! k) as [c|] eqn:E;
    [destruct (bool_decide (c ≠ EmptyString)) eqn:Eb|]; cbn;
    rewrite ?lookup_delete_eq, ?E; cbn; rewrite ?Eb; cbn;
    rewrite list_filter_filter_l, delete_delete_eq by done; done.
Qed.

Lemma bas_dequeued_id k s :
  k ∉ Basic.waitingQueue s -> Basic.dequeued k s = s.
Proof.
  intros Hk. unfold Basic.dequeued. rewrite (indexOf_not_elem _ _ Hk).
  by rewrite decide_False by lia.
Qed.

Lemma bas_released_idem k s :
  Basic.data_model s ->
  Basic.released k (Basic.released k s) = Basic.released k s
  /\ Basic.left_msgs k (Basic.released k s) = [].
Proof.
  intros [Hs Hn Hd]. unfold Basic.released at 2 3 4.
  destruct (Basic.peers s !! k) as [p|] eqn:Hk;
    [destruct (truthy (Some p)) eqn:Ht|].
  - unfold Basic.released, Basic.left_msgs. cbn. rewrite lookup_delete_eq.
    split; [|done]. apply bas_dequeued_id. cbn. intros Hin%Hd. congruence.
  - unfold Basic.released, Basic.left_msgs.
    rewrite bas_dequeued_peers, Hk, Ht. split; [|done].
    apply bas_dequeued_id. by apply bas_dequeued_not_elem.
  - unfold Basic.released, Basic.left_msgs.
    rewrite bas_dequeued_peers, Hk. split; [|done].
    apply bas_dequeued_id. by apply bas_dequeued_not_elem.
Qed.

(** * The claims *)

(** C1. On a connection that finds the queue non-empty, the head of the
    queue is popped as partner, the pair table records partner and newcomer
    under each other's id, and [match-found] goes to the partner with
    [isInitiator = true] and to the newcomer with [isInitiator = false]; in
    both servers.  (The enhanced server tests the popped id for truthiness,
    hence the premise that it is a socket id.) *)
Theorem C1_connect_pairs_with_queue_head :
  (forall (s : Enhanced.State) socket now h rest,
     Enhanced.waitingQueue s = h :: rest ->
     Enhanced.valid_id (Enhanced.socketId h) ->
     let k := Enhanced.id socket in
     let partner := Enhanced.socketId h in
     let r := Enhanced.onConnection socket now s in
     Enhanced.waitingQueue (final r) = rest
     /\ Enhanced.peers (final r)
        = <[partner := k]> (<[k := partner]> (Enhanced.peers s))
     /\ Enhanced.peers (final r) !! k = Some partner
     /\ Enhanced.peers (final r) !! partner = Some k
     /\ emitted (trace r)
        = [(partner, MatchFound k true); (k, MatchFound partner false)])
  /\ (forall (s : Basic.State) k partner rest,
        Basic.waitingQueue s = partner :: rest ->
        let r := Basic.onConnection k s in
        Basic.waitingQueue (final r) = rest
        /\ Basic.peers (final r)
           = <[partner := k]> (<[k := partner]> (Basic.peers s))
        /\ Basic.peers (final r) !! k = Some partner
        /\ Basic.peers (final r) !! partner = Some k
        /\ emitted (trace r)
           = [(partner, MatchFound k true); (k, MatchFound partner false)]).
Proof.
  split.
  - intros s socket now h rest Hq Hh k partner r.
    destruct (enh_onConnection_run socket now s) as (_ & Hf & He).
    fold r in Hf, He. rewrite Hf, He.
    unfold Enhanced.matched, Enhanced.matched_msgs.
    cbn [Enhanced.waitingQueue Enhanced.set_userInfo]. rewrite Hq.
    assert (truthy (Some (Enhanced.socketId h)) = true) as ->
      by by apply bool_decide_eq_true_2.
    cbn. fold k partner.
    rewrite pair_lookup_l, lookup_insert_eq. done.
  - intros s k partner rest Hq r.
    destruct (bas_onConnection_run k s) as (_ & Hf & He).
    fold r in Hf, He. rewrite Hf, He.
    unfold Basic.matched, Basic.matched_msgs. rewrite Hq. cbn.
    rewrite pair_lookup_l, lookup_insert_eq. done.
Qed.

Lemma C1_witness :
  (let r := Enhanced.onConnection Enhanced.socket_B 2000
              (Enhanced.server Enhanced.world_A_waiting) in
   Enhanced.waitingQueue (final r) = []
   /\ Enhanced.peers (final r) = <["A" := "B"]> (<["B" := "A"]> ∅)
   /\ Enhanced.peers (final r) !! "B" = Some "A"
   /\ Enhanced.peers (final r) !! "A" = Some "B"
   /\ emitted (trace r)
      = [("A", MatchFound "B" true); ("B", MatchFound "A" false)])
  /\ (let r := Basic.onConnection "B" (Basic.server Basic.world_A_waiting) in
      Basic.waitingQueue (final r) = []
      /\ Basic.peers (final r) = <["A" := "B"]> (<["B" := "A"]> ∅)
      /\ Basic.peers (final r) !! "B" = Some "A"
      /\ Basic.peers (final r) !! "A" = Some "B"
      /\ emitted (trace r)
         = [("A", MatchFound "B" true); ("B", MatchFound "A" false)]).
Proof.
  split.
  - apply (proj1 C1_connect_pairs_with_queue_head
             (Enhanced.server Enhanced.world_A_waiting) Enhanced.socket_B 2000
             Enhanced.user_A []); [reflexivity | discriminate].
  - apply (proj2 C1_connect_pairs_with_queue_head
             (Basic.server Basic.world_A_waiting) "B" "A" []); reflexivity.
Defined.

(** ** The scenarios of the specification, run on the enhanced server *)

Example scenario_1 :
  Enhanced.observe [Enhanced.Connect Enhanced.socket_A 1000;
                    Enhanced.Connect Enhanced.socket_B 2000]
  = Some ([], [("A", "B"); ("B", "A")],
          [("A", WaitingForPeer); ("A", MatchFound "B" true);
           ("B", MatchFound "A" false)]).
Proof. vm_compute. reflexivity. Qed.

Example scenario_2 :
  Enhanced.observe [Enhanced.Connect Enhanced.socket_A 1000;
                    Enhanced.Connect Enhanced.socket_B 2000;
                    Enhanced.SignalFrom "B" offer]
  = Some ([], [("A", "B"); ("B", "A")],
          [("A", WaitingForPeer); ("A", MatchFound "B" true);
           ("B", MatchFound "A" false); ("A", Signal offer)]).
Proof. vm_compute. reflexivity. Qed.

Example scenario_3 :
  Enhanced.observe [Enhanced.Connect Enhanced.socket_A 1000;
                    Enhanced.Connect Enhanced.socket_B 2000;
                    Enhanced.DisconnectOf "A" "transport close"]
  = Some ([], [],
          [("A", WaitingForPeer); ("A", MatchFound "B" true);
           ("B", MatchFound "A" false); ("B", PeerDisconnected)]).
Proof. vm_compute. reflexivity. Qed.

Example scenario_4 :
  Enhanced.observe [Enhanced.Connect Enhanced.socket_A 1000;
                    Enhanced.Connect Enhanced.socket_B 2000;
                    Enhanced.FindNextFrom "A"]
  = Some ([Enhanced.user_A], [],
          [("A", WaitingForPeer); ("A", MatchFound "B" true);
           ("B", MatchFound "A" false); ("B", PeerDisconnected);
           ("A", WaitingForPeer)]).
Proof. vm_compute. reflexivity. Qed.

Example scenario_5 :
  Enhanced.observe [Enhanced.Connect Enhanced.socket_A 1000;
                    Enhanced.SignalFrom "A" offer]
  = Some ([Enhanced.user_A], [],
          [("A", WaitingForPeer); ("A", Error "No active peer connection")]).
Proof. vm_compute. reflexivity. Qed.

Example scenario_6 :
  Enhanced.observe [Enhanced.Connect Enhanced.socket_A 1000;
                    Enhanced.Tick 301001]
  = Some ([], [], [("A", WaitingForPeer)]).
Proof. vm_compute. reflexivity. Qed.

(** C2. In every world reachable by connections, signals, find-next
    requests, disconnections and (enhanced server) sweeps, no id is at once
    in the waiting queue and a key of the pair table; in both servers. *)
Theorem C2_never_queued_and_paired :
  (forall w, Enhanced.reachable w ->
     forall k, ~ (Enhanced.queued k (Enhanced.server w)
                  /\ Enhanced.is_paired k (Enhanced.server w)))
  /\ (forall w, Basic.reachable w ->
        forall k, ~ (Basic.queued k (Basic.server w)
                     /\ Basic.is_paired k (Basic.server w))).
Proof.
  split.
  - intros w [[_ Hd _ _ _ _] _ _ _]%enh_reachable_wf k
      [(u & Hu & <-) [p Hp]].
    unfold Enhanced.is_paired in *. rewrite (Hd u Hu) in Hp. done.
  - intros w [[_ _ Hd] _ _ _ _]%bas_reachable_wf k [Hk [p Hp]].
    rewrite (Hd k Hk) in Hp. done.
Qed.

Lemma C2_witness :
  ~ (Enhanced.queued "A" (Enhanced.server Enhanced.world_A_waiting)
     /\ Enhanced.is_paired "A" (Enhanced.server Enhanced.world_A_waiting))
  /\ ~ (Basic.queued "A" (Basic.server Basic.world_AB_paired)
        /\ Basic.is_paired "A" (Basic.server Basic.world_AB_paired)).
Proof.
  split.
  - apply (proj1 C2_never_queued_and_paired Enhanced.world_A_waiting).
    exists [Enhanced.Connect Enhanced.socket_A 1000]. eexists.
    vm_compute. reflexivity.
  - apply (proj2 C2_never_queued_and_paired Basic.world_AB_paired).
    exists [Basic.Connect "A"; Basic.Connect "B"]. eexists.
    vm_compute. reflexivity.
Defined.

(** C3. A find-next request first notifies the requester's partner, if it
    has one, with [peer-disconnected] and removes both directions of the
    pairing, and then does what a connection of the same socket does on the
    state so obtained.  Afterwards the requester is not paired with its old
    partner: it is paired with the connection that headed the queue, or it is
    the only entry of the queue and unpaired.  Stated on the reachable worlds
    of both servers; the enhanced server re-enters the requester with the
    [user] object of its connection. *)
Theorem C3_find_next_leaves_then_rematches :
  (forall w k user,
     Enhanced.reachable w -> Enhanced.listeners w !! k = Some user ->
     let s := Enhanced.server w in
     let r := Enhanced.onFindNext k user s in
     let s1 := Enhanced.unpaired k s in
     let again :=
       Enhanced.onConnection
         (Enhanced.MkSocket k (Enhanced.userAgent user))
         (Enhanced.joinedAt user) s1 in
     value r = inr tt
     /\ emitted (trace r)
        = (match Enhanced.peers s !! k with
           | Some p => [(p, PeerDisconnected)]
           | None => []
           end ++ emitted (trace again))%list
     /\ final r = final again
     /\ Enhanced.peers s1 !! k = None
     /\ (forall p, Enhanced.peers s !! k = Some p ->
           Enhanced.peers s1 !! p = None
           /\ Enhanced.peers (final r) !! k <> Some p)
     /\ (forall a, a <> k -> Enhanced.peers s !! k <> Some a ->
           Enhanced.peers s1 !! a = Enhanced.peers s !! a)
     /\ Enhanced.waitingQueue s1 = Enhanced.waitingQueue s
     /\ ((exists h rest,
            Enhanced.waitingQueue s = h :: rest
            /\ Enhanced.waitingQueue (final r) = rest
            /\ Enhanced.peers (final r) !! k = Some (Enhanced.socketId h)
            /\ Enhanced.peers (final r) !! Enhanced.socketId h = Some k)
         \/ (Enhanced.waitingQueue s = []
             /\ Enhanced.waitingQueue (final r) = [user]
             /\ Enhanced.peers (final r) !! k = None)))
  /\ (forall w k,
        Basic.reachable w ->
        let s := Basic.server w in
        let r := Basic.onFindNext k s in
        let leave := Basic.handleDisconnect k s in
        let s1 := final leave in
        let again := Basic.onConnection k s1 in
        value r = inr tt
        /\ emitted (trace leave)
           = match Basic.peers s !! k with
             | Some p => [(p, PeerDisconnected)]
             | None => []
             end
        /\ emitted (trace r) = (emitted (trace leave) ++ emitted (trace again))%list
        /\ final r = final again
        /\ Basic.peers s1 !! k = None
        /\ (forall p, Basic.peers s !! k = Some p ->
              Basic.peers s1 !! p = None
              /\ Basic.peers (final r) !! k <> Some p)
        /\ (forall a, a <> k -> Basic.peers s !! k <> Some a ->
              Basic.peers s1 !! a = Basic.peers s !! a)
        /\ ((exists h rest,
               Basic.waitingQueue s1 = h :: rest
               /\ Basic.waitingQueue (final r) = rest
               /\ Basic.peers (final r) !! k = Some h
               /\ Basic.peers (final r) !! h = Some k)
            \/ (Basic.waitingQueue s1 = []
                /\ Basic.waitingQueue (final r) = [k]
                /\ Basic.peers (final r) !! k = None))).
Proof.
  split.
  - intros w k user Hw%enh_reachable_wf Hk s r s1 again.
    destruct Hw as [Hi Hlis Hclo Hui]. fold s in Hi, Hlis, Hui.
    pose proof (Hclo k user Hk) as Hsid. pose proof (Hui k user Hk) as Hinfo.
    destruct (enh_onFindNext_run k user s) as (Hv & Hf & He).
    destruct (enh_onConnection_run
                (Enhanced.MkSocket k (Enhanced.userAgent user))
                (Enhanced.joinedAt user) s1) as (_ & Hf' & He').
    fold r in Hv, Hf, He. fold s1 in Hf, He. fold again in Hf', He'.
    cbn [Enhanced.id Enhanced.header_user_agent] in Hf', He'.
    assert (Huser : Enhanced.MkUser k (Enhanced.joinedAt user)
                      (Enhanced.userAgent user) = user)
      by (destruct user; cbn in *; by subst).
    rewrite Huser in Hf', He'.
    assert (Hs0 : Enhanced.set_userInfo (<[k := user]> (Enhanced.userInfo s1)) s1
                  = s1).
    { unfold s1. unfold Enhanced.set_userInfo.
      rewrite enh_unpaired_userInfo, insert_id by done.
      rewrite <- (enh_unpaired_userInfo s k). by destruct (Enhanced.unpaired k s). }
    rewrite Hs0 in Hf', He'.
    assert (Hq1 : Enhanced.waitingQueue s1 = Enhanced.waitingQueue s)
      by apply enh_unpaired_queue.
    assert (Hk1 : Enhanced.peers s1 !! k = None)
      by by apply enh_unpaired_lookup.
    assert (Hleft : Enhanced.left_msgs k s
                    = match Enhanced.peers s !! k with
                      | Some p => [(p, PeerDisconnected)]
                      | None => []
                      end).
    { unfold Enhanced.left_msgs.
      destruct (Enhanced.peers s !! k) as [p|] eqn:Hp; [|done].
      by rewrite (enh_inv_partner_valid s k p Hi Hp). }
    assert (Hfinal : forall h rest, Enhanced.waitingQueue s = h :: rest ->
              Enhanced.waitingQueue (final r) = rest
              /\ Enhanced.peers (final r) !! k = Some (Enhanced.socketId h)
              /\ Enhanced.peers (final r) !! Enhanced.socketId h = Some k).
    { intros h rest Hq. rewrite Hf. unfold Enhanced.matched. rewrite Hq1, Hq.
      assert (truthy (Some (Enhanced.socketId h)) = true) as ->.
      { apply bool_decide_eq_true_2.
        apply (Enhanced.inv_valid s Hi), (Enhanced.inv_queue_open s Hi).
        rewrite Hq. by left. }
      cbn. by rewrite pair_lookup_l, lookup_insert_eq. }
    repeat apply conj.
    + done.
    + by rewrite He, He', Hleft.
    + by rewrite Hf, Hf'.
    + done.
    + intros p Hp. pose proof (Enhanced.inv_symmetric s Hi k p Hp) as Hpk.
      split.
      * unfold s1, Enhanced.unpaired. rewrite Hp.
        rewrite (enh_inv_partner_valid s k p Hi Hp). cbn.
        destruct (decide (p = k)) as [->|]; [by rewrite lookup_delete_eq|].
        rewrite lookup_delete_ne by done. by rewrite lookup_delete_eq.
      * destruct (Enhanced.waitingQueue s) as [|h rest] eqn:Hq.
        -- rewrite Hf. unfold Enhanced.matched. rewrite Hq1. cbn.
           by rewrite Hk1.
        -- destruct (Hfinal h rest eq_refl) as (_ & -> & _).
           intros [= Hh].
           assert (Hin : h ∈ Enhanced.waitingQueue s) by (rewrite Hq; by left).
           apply (Enhanced.inv_disjoint s Hi) in Hin. congruence.
    + intros a Hak Hap. unfold s1, Enhanced.unpaired.
      destruct (Enhanced.peers s !! k) as [p|] eqn:Hp; [|done].
      destruct (truthy (Some p)); [|done]. cbn.
      rewrite !lookup_delete_ne by congruence. done.
    + done.
    + destruct (Enhanced.waitingQueue s) as [|h rest] eqn:Hq.
      * right. split; [done|]. rewrite Hf. unfold Enhanced.matched.
        rewrite Hq1. cbn. by rewrite Hq1.
      * left. exists h, rest. split; [done|]. by apply Hfinal.
  - intros w k Hw%bas_reachable_wf s r leave s1 again.
    destruct (bas_onFindNext_run k s) as (Hv & Hf & He).
    destruct (bas_handleDisconnect_run k s) as (_ & Hf1 & He1).
    destruct (bas_onConnection_run k s1) as (_ & Hf' & He').
    fold r in Hv, Hf, He. fold leave in Hf1, He1. fold s1 in Hf1.
    fold again in Hf', He'. clearbody r leave s1 again. subst s1.
    assert (Hvalid : forall p, Basic.peers s !! k = Some p ->
              truthy (Some p) = true).
    { intros p Hp. apply bool_decide_eq_true_2.
      by apply (bas_wf_partner_valid w k p). }
    assert (Hleft : Basic.left_msgs k s
                    = match Basic.peers s !! k with
                      | Some p => [(p, PeerDisconnected)]
                      | None => []
                      end).
    { unfold Basic.left_msgs.
      destruct (Basic.peers s !! k) as [p|] eqn:Hp; [|done].
      by rewrite (Hvalid p). }
    destruct (bas_released_absent k s) as [Hk1 Hq1].
    { apply Hw. }
    { intros p. apply (bas_wf_partner_valid w k p Hw). }
    assert (Hfinal : forall h rest,
              Basic.waitingQueue (Basic.released k s) = h :: rest ->
              Basic.waitingQueue (final r) = rest
              /\ Basic.peers (final r) !! k = Some h
              /\ Basic.peers (final r) !! h = Some k).
    { intros h rest Hq. rewrite Hf. unfold Basic.matched. rewrite Hq.
      unfold Basic.paired, Basic.set_peers, Basic.set_waitingQueue.
      cbn [Basic.peers Basic.waitingQueue].
      by rewrite pair_lookup_l, lookup_insert_eq. }
    repeat apply conj.
    + done.
    + by rewrite He1, Hleft.
    + by rewrite He, He', He1.
    + by rewrite Hf, Hf'.
    + done.
    + intros p Hp.
      pose proof (Basic.dm_symmetric s (Basic.wf_data w Hw) k p Hp) as Hpk.
      split.
      * unfold Basic.released. rewrite Hp, (Hvalid p Hp).
        unfold Basic.set_peers. cbn [Basic.peers].
        destruct (decide (p = k)) as [->|]; [by rewrite lookup_delete_eq|].
        rewrite lookup_delete_ne by done. by rewrite lookup_delete_eq.
      * destruct (Basic.waitingQueue (Basic.released k s)) as [|h rest] eqn:Hq.
        -- rewrite Hf. unfold Basic.matched. rewrite Hq.
           unfold Basic.enqueued, Basic.set_waitingQueue. cbn [Basic.peers].
           by rewrite Hk1.
        -- destruct (Hfinal h rest eq_refl) as (_ & -> & _).
           intros [= ->].
           assert (Hin : p ∈ Basic.waitingQueue s).
           { eapply elem_of_sublist; [|apply (bas_released_sublist k s)].
             rewrite Hq. by left. }
           apply (Basic.dm_disjoint s (Basic.wf_data w Hw)) in Hin. congruence.
    + intros a Hak Hap. unfold Basic.released.
      destruct (Basic.peers s !! k) as [p|] eqn:Hp;
        [destruct (truthy (Some p))|]; rewrite ?bas_dequeued_peers; try done.
      unfold Basic.set_peers. cbn [Basic.peers].
      rewrite !lookup_delete_ne by congruence. done.
    + destruct (Basic.waitingQueue (Basic.released k s)) as [|h rest] eqn:Hq.
      * right. split; [done|]. rewrite Hf. unfold Basic.matched.
        rewrite Hq. unfold Basic.enqueued, Basic.set_waitingQueue.
        cbn [Basic.peers Basic.waitingQueue]. by rewrite Hq.
      * left. exists h, rest. split; [done|]. by apply Hfinal.
Qed.

Lemma C3_witness :
  (let r := Enhanced.onFindNext "A" Enhanced.user_A
              (Enhanced.server Enhanced.world_AB_paired) in
   Enhanced.peers (final r) !! "A" <> Some "B")
  /\ (let r := Basic.onFindNext "A" (Basic.server Basic.world_AB_paired) in
      Basic.peers (final r) !! "A" <> Some "B").
Proof.
  split.
  - destruct (proj1 C3_find_next_leaves_then_rematches
                Enhanced.world_AB_paired "A" Enhanced.user_A)
      as (_ & _ & _ & _ & Hold & _).
    + exists [Enhanced.Connect Enhanced.socket_A 1000;
              Enhanced.Connect Enhanced.socket_B 2000]. eexists.
      vm_compute. reflexivity.
    + reflexivity.
    + apply (Hold "B"). reflexivity.
  - destruct (proj2 C3_find_next_leaves_then_rematches
                Basic.world_AB_paired "A")
      as (_ & _ & _ & _ & _ & Hold & _).
    + exists [Basic.Connect "A"; Basic.Connect "B"]. eexists.
      vm_compute. reflexivity.
    + apply (Hold "B"). reflexivity.
Defined.

(** C4. The pair table of every reachable world is symmetric, and it is
    symmetric again after any further operation; in both servers. *)
Theorem C4_pair_table_symmetric :
  (forall w, Enhanced.reachable w ->
     symmetric (Enhanced.peers (Enhanced.server w))
     /\ forall e w' t, Enhanced.step w e = Some (w', t) ->
          symmetric (Enhanced.peers (Enhanced.server w')))
  /\ (forall w, Basic.reachable w ->
        symmetric (Basic.peers (Basic.server w))
        /\ forall e w' t, Basic.step w e = Some (w', t) ->
             symmetric (Basic.peers (Basic.server w'))).
Proof.
  split.
  - intros w Hw%enh_reachable_wf. split; [apply Hw|].
    intros e w' t Hstep. by apply (enh_step_wf _ _ _ _ Hw Hstep).
  - intros w Hw%bas_reachable_wf. split; [apply Hw|].
    intros e w' t Hstep. by apply (bas_step_wf _ _ _ _ Hw Hstep).
Qed.

Lemma C4_witness :
  symmetric (Enhanced.peers (Enhanced.server Enhanced.world_AB_paired))
  /\ symmetric (Basic.peers (Basic.server Basic.world_AB_paired)).
Proof.
  split.
  - apply (proj1 C4_pair_table_symmetric Enhanced.world_AB_paired).
    exists [Enhanced.Connect Enhanced.socket_A 1000;
            Enhanced.Connect Enhanced.socket_B 2000]. eexists.
    vm_compute. reflexivity.
  - apply (proj2 C4_pair_table_symmetric Basic.world_AB_paired).
    exists [Basic.Connect "A"; Basic.Connect "B"]. eexists.
    vm_compute. reflexivity.
Defined.

(** C5, as stated, fails on the basic server: a signal from a connection
    without partner is logged there and nothing is sent back. *)
Lemma C5_basic_sends_no_error :
  Basic.peers Basic.init !! "X" = None
  /\ forall message,
       ("X", Error message)
         ∉ emitted (trace (Basic.onSignal "X" offer Basic.init)).
Proof.
  split; [reflexivity|]. intros message.
  replace (emitted (trace (Basic.onSignal "X" offer Basic.init)))
    with (@nil (string * Msg)) by (vm_compute; reflexivity).
  apply not_elem_of_nil.
Qed.

(** C5, amended.  In the enhanced server a signal from a connection that has
    no partner, or whose recorded partner is no longer open, is answered by
    an [error] message to the sender and by nothing else, and leaves the
    state as it was.  In the basic server a signal from a connection without
    partner emits nothing and leaves the state as it was. *)
Theorem C5_signal_without_live_peer :
  (forall (s : Enhanced.State) k payload,
     Enhanced.peers s !! k = None
     \/ (exists p, Enhanced.peers s !! k = Some p /\ p ∉ Enhanced.sockets s) ->
     let r := Enhanced.onSignal k payload s in
     value r = inr tt /\ final r = s
     /\ emitted (trace r) = [(k, Error "No active peer connection")])
  /\ (forall (s : Basic.State) k payload,
        Basic.peers s !! k = None ->
        let r := Basic.onSignal k payload s in
        value r = inr tt /\ final r = s /\ emitted (trace r) = []).
Proof.
  split.
  - intros s k payload Hk r.
    destruct (enh_onSignal_run k payload s) as (Hv & Hf & He).
    fold r in Hv, Hf, He. rewrite Hv, Hf, He.
    assert (Enhanced.live_peer k s = None) as ->; [|done].
    unfold Enhanced.live_peer. destruct Hk as [->|(p & -> & Hp)]; [done|].
    rewrite (bool_decide_eq_false_2 _ Hp). by destruct (truthy (Some p)).
  - intros s k payload Hk r.
    destruct (bas_onSignal_run k payload s) as (Hf & Hr).
    fold r in Hf, Hr. rewrite Hk in Hr. by destruct Hr.
Qed.

Lemma C5_witness :
  (let r := Enhanced.onSignal "A" offer
              (Enhanced.server Enhanced.world_A_waiting) in
   value r = inr tt /\ final r = Enhanced.server Enhanced.world_A_waiting
   /\ emitted (trace r) = [("A", Error "No active peer connection")])
  /\ (let r := Basic.onSignal "A" offer
                 (Basic.server Basic.world_A_waiting) in
      value r = inr tt /\ final r = Basic.server Basic.world_A_waiting
      /\ emitted (trace r) = []).
Proof.
  split.
  - apply (proj1 C5_signal_without_live_peer). left. reflexivity.
  - apply (proj2 C5_signal_without_live_peer). reflexivity.
Defined.

(** C6, as stated, fails: with a live partner, a payload that is
    [undefined] is not relayed, because the handler reads [payload.type]
    for its log line before it emits, and that read throws. *)
Lemma C6_undefined_payload_not_relayed :
  let s := Enhanced.server Enhanced.world_AB_paired in
  Enhanced.peers s !! "A" = Some "B"
  /\ "B" ∈ Enhanced.sockets s
  /\ emitted (trace (Enhanced.onSignal "A" JsUndefined s)) = [].
Proof. repeat split; vm_compute; reflexivity. Qed.

(** C6, amended.  When the sender has a live partner and the payload is
    neither [null] nor [undefined], the payload is relayed to the partner
    unchanged in one [signal] message, and a [signal] message is emitted only
    then; the handler reads the payload's [type] (enhanced server) or its
    keys (basic server) for the log line only, and with a [null] or
    [undefined] payload that read throws and nothing is relayed.  The state
    is never changed.  The basic server does not test that the partner is
    still connected, but in its reachable worlds a recorded partner always
    is. *)
Theorem C6_relay_of_defined_payload :
  (forall (s : Enhanced.State) k p payload,
     Enhanced.peers s !! k = Some p -> Enhanced.valid_id p ->
     p ∈ Enhanced.sockets s ->
     let r := Enhanced.onSignal k payload s in
     value r = inr tt /\ final r = s
     /\ (nullish payload = false -> emitted (trace r) = [(p, Signal payload)])
     /\ (nullish payload = true -> emitted (trace r) = [])
     /\ (forall type, read_type payload = inr type ->
           logged (trace r)
           = [Enhanced.MkLog k "SIGNAL_RELAY"
                (JsObject [("to", JsString p); ("type", type)])]))
  /\ (forall (s : Enhanced.State) k payload q x,
        (q, Signal x) ∈ emitted (trace (Enhanced.onSignal k payload s)) ->
        Enhanced.peers s !! k = Some q /\ q ∈ Enhanced.sockets s
        /\ x = payload /\ nullish payload = false)
  /\ (forall (s : Basic.State) k p payload,
        Basic.peers s !! k = Some p -> Basic.valid_id p ->
        let r := Basic.onSignal k payload s in
        final r = s
        /\ (nullish payload = false ->
            value r = inr tt /\ emitted (trace r) = [(p, Signal payload)])
        /\ (nullish payload = true ->
            (exists e, value r = inl e) /\ emitted (trace r) = []))
  /\ (forall w k payload q x,
        Basic.reachable w ->
        (q, Signal x)
          ∈ emitted (trace (Basic.onSignal k payload (Basic.server w))) ->
        Basic.peers (Basic.server w) !! k = Some q /\ q ∈ Basic.connected w
        /\ x = payload /\ nullish payload = false).
Proof.
  repeat apply conj.
  - intros s k p payload Hk Hp Hopen r.
    destruct (enh_onSignal_run k payload s) as (Hv & Hf & He).
    pose proof (enh_onSignal_trace k payload s) as Ht.
    fold r in Hv, Hf, He, Ht.
    assert (Hlive : Enhanced.live_peer k s = Some p).
    { unfold Enhanced.live_peer. rewrite Hk. cbn.
      by rewrite !bool_decide_eq_true_2. }
    rewrite Hlive in He, Ht. rewrite Hv, Hf, He.
    repeat split.
    + by intros ->.
    + by intros ->.
    + intros type Hty. rewrite Ht, Hty. done.
  - intros s k payload q x Hin.
    destruct (enh_onSignal_run k payload s) as (_ & _ & He).
    rewrite He in Hin. unfold Enhanced.live_peer in Hin.
    destruct (Enhanced.peers s !! k) as [p|];
      [|by apply list_elem_of_singleton in Hin].
    destruct (truthy (Some p)); cbn in Hin;
      [|by apply list_elem_of_singleton in Hin].
    destruct (bool_decide (p ∈ Enhanced.sockets s)) eqn:Hopen;
      [|by apply list_elem_of_singleton in Hin].
    apply bool_decide_eq_true_1 in Hopen.
    destruct (nullish payload); [by apply elem_of_nil in Hin|].
    apply list_elem_of_singleton in Hin. by injection Hin as -> ->.
  - intros s k p payload Hk Hp r.
    destruct (bas_onSignal_run k payload s) as (Hf & Hr).
    fold r in Hf, Hr. rewrite Hk in Hr.
    assert (truthy (Some p) = true) as Ht by by apply bool_decide_eq_true_2.
    rewrite Ht in Hr. split; [done|].
    split; intros Hn; by rewrite Hn in Hr.
  - intros w k payload q x Hw%bas_reachable_wf Hin.
    destruct (bas_onSignal_run k payload (Basic.server w)) as (_ & Hr).
    destruct (Basic.peers (Basic.server w) !! k) as [p|] eqn:Hk.
    + destruct (truthy (Some p)).
      * destruct (nullish payload).
        -- destruct Hr as [_ He]. rewrite He in Hin. by apply elem_of_nil in Hin.
        -- destruct Hr as [_ He]. rewrite He in Hin.
           apply list_elem_of_singleton in Hin. injection Hin as -> ->.
           repeat split; try done.
           eapply (Basic.wf_peers_open w Hw), (Basic.dm_symmetric _ (Basic.wf_data w Hw)), Hk.
      * destruct Hr as [_ He]. rewrite He in Hin. by apply elem_of_nil in Hin.
    + destruct Hr as [_ He]. rewrite He in Hin. by apply elem_of_nil in Hin.
Qed.

Lemma C6_witness :
  (let s := Enhanced.server Enhanced.world_AB_paired in
   let r := Enhanced.onSignal "A" offer s in
   value r = inr tt /\ final r = s
   /\ (nullish offer = false -> emitted (trace r) = [("B", Signal offer)])
   /\ (nullish offer = true -> emitted (trace r) = [])
   /\ (forall type, read_type offer = inr type ->
         logged (trace r)
         = [Enhanced.MkLog "A" "SIGNAL_RELAY"
              (JsObject [("to", JsString "B"); ("type", type)])]))
  /\ (let s := Basic.server Basic.world_AB_paired in
      let r := Basic.onSignal "A" offer s in
      final r = s
      /\ (nullish offer = false ->
          value r = inr tt /\ emitted (trace r) = [("B", Signal offer)])
      /\ (nullish offer = true ->
          (exists e, value r = inl e) /\ emitted (trace r) = [])).
Proof.
  split.
  - apply (proj1 C6_relay_of_defined_payload
             (Enhanced.server Enhanced.world_AB_paired) "A" "B" offer);
      [reflexivity | discriminate | vm_compute; reflexivity].
  - apply (proj1 (proj2 (proj2 C6_relay_of_defined_payload))
             (Basic.server Basic.world_AB_paired) "A" "B" offer);
      [reflexivity | discriminate].
Defined.

(** C7, as stated, fails: the basic server enqueues without telling the
    client, and the enhanced server also records the connection's
    metadata. *)
Lemma C7_enqueue_is_silent_or_records_metadata :
  Basic.waitingQueue Basic.init = []
  /\ (("A", WaitingForPeer)
        ∉ emitted (trace (Basic.onConnection "A" Basic.init)))
  /\ Enhanced.waitingQueue Enhanced.init = []
  /\ Enhanced.userInfo
       (final (Enhanced.onConnection Enhanced.socket_A 1000 Enhanced.init))
     <> Enhanced.userInfo Enhanced.init.
Proof.
  repeat split.
  - replace (emitted (trace (Basic.onConnection "A" Basic.init)))
      with (@nil (string * Msg)) by (vm_compute; reflexivity).
    apply not_elem_of_nil.
  - intros Heq. apply (f_equal (fun m => m !! "A")) in Heq.
    vm_compute in Heq. discriminate.
Qed.

(** C7, amended.  On a connection that finds the queue empty, the enhanced
    server appends an entry for the newcomer with the current time, records
    the same entry as the connection's metadata, and emits
    [waiting-for-peer] to the newcomer; the basic server appends the bare id
    and emits nothing; nothing else changes. *)
Theorem C7_connect_on_empty_queue :
  (forall (s : Enhanced.State) socket now,
     Enhanced.waitingQueue s = [] ->
     let k := Enhanced.id socket in
     let user := Enhanced.MkUser k now (Enhanced.header_user_agent socket) in
     let r := Enhanced.onConnection socket now s in
     value r = inr user
     /\ final r = Enhanced.MkState (Enhanced.sockets s) [user] (Enhanced.peers s)
                    (<[k := user]> (Enhanced.userInfo s))
     /\ emitted (trace r) = [(k, WaitingForPeer)])
  /\ (forall (s : Basic.State) k,
        Basic.waitingQueue s = [] ->
        let r := Basic.onConnection k s in
        value r = inr tt
        /\ final r = Basic.MkState [k] (Basic.peers s)
        /\ emitted (trace r) = []).
Proof.
  split.
  - intros s socket now Hq k user r.
    destruct (enh_onConnection_run socket now s) as (Hv & Hf & He).
    fold r in Hv, Hf, He. rewrite Hv, Hf, He.
    unfold Enhanced.matched, Enhanced.matched_msgs.
    destruct s as [so q p ui]. cbn in *. by subst q.
  - intros s k Hq r.
    destruct (bas_onConnection_run k s) as (Hv & Hf & He).
    fold r in Hv, Hf, He. rewrite Hv, Hf, He.
    unfold Basic.matched, Basic.matched_msgs.
    destruct s as [q p]. cbn in *. by subst q.
Qed.

Lemma C7_witness :
  (let r := Enhanced.onConnection Enhanced.socket_A 1000 Enhanced.init in
   value r = inr Enhanced.user_A
   /\ final r = Enhanced.MkState ∅ [Enhanced.user_A] ∅
                  (<["A" := Enhanced.user_A]> ∅)
   /\ emitted (trace r) = [("A", WaitingForPeer)])
  /\ (let r := Basic.onConnection "A" Basic.init in
      value r = inr tt
      /\ final r = Basic.MkState ["A"] ∅
      /\ emitted (trace r) = []).
Proof.
  split.
  - apply (proj1 C7_connect_on_empty_queue Enhanced.init Enhanced.socket_A 1000).
    reflexivity.
  - apply (proj2 C7_connect_on_empty_queue Basic.init "A"). reflexivity.
Defined.

(** C8. Disconnecting twice leaves the state that disconnecting once
    leaves, and the second call changes nothing and emits nothing: in the
    enhanced server from every state, in the basic server from every state
    that meets the invariants of the data model. *)
Theorem C8_disconnect_idempotent :
  (forall (s : Enhanced.State) k reason reason',
     let once := Enhanced.onDisconnect k reason s in
     let twice := Enhanced.onDisconnect k reason' (final once) in
     value once = inr tt /\ value twice = inr tt
     /\ final twice = final once
     /\ emitted (trace twice) = [])
  /\ (forall (s : Basic.State) k,
        Basic.data_model s ->
        let once := Basic.onDisconnect k s in
        let twice := Basic.onDisconnect k (final once) in
        value once = inr tt /\ value twice = inr tt
        /\ final twice = final once
        /\ emitted (trace twice) = []).
Proof.
  split.
  - intros s k reason reason' once twice.
    destruct (enh_onDisconnect_run k reason s) as (Hv & Hf & _).
    fold once in Hv, Hf.
    destruct (enh_onDisconnect_run k reason' (final once)) as (Hv' & Hf' & He').
    fold twice in Hv', Hf', He'.
    destruct (enh_cleaned_idem k s) as [Hc Hg].
    rewrite Hv, Hv', Hf', He', Hf, Hc, Hg. done.
  - intros s k Hdm once twice.
    destruct (bas_onDisconnect_run k s) as (Hv & Hf & _).
    fold once in Hv, Hf.
    destruct (bas_onDisconnect_run k (final once)) as (Hv' & Hf' & He').
    fold twice in Hv', Hf', He'.
    destruct (bas_released_idem k s Hdm) as [Hc Hg].
    rewrite Hv, Hv', Hf', He', Hf, Hc, Hg. done.
Qed.

Lemma C8_witness :
  (let once := Enhanced.onDisconnect "A" "transport close"
                 (Enhanced.gateway_remove "A"
                    (Enhanced.server Enhanced.world_AB_paired)) in
   let twice := Enhanced.onDisconnect "A" "transport close" (final once) in
   value once = inr tt /\ value twice = inr tt
   /\ final twice = final once /\ emitted (trace twice) = [])
  /\ (let once := Basic.onDisconnect "A" (Basic.server Basic.world_AB_paired) in
      let twice := Basic.onDisconnect "A" (final once) in
      value once = inr tt /\ value twice = inr tt
      /\ final twice = final once /\ emitted (trace twice) = []).
Proof.
  split.
  - apply (proj1 C8_disconnect_idempotent).
  - apply (proj2 C8_disconnect_idempotent
             (Basic.server Basic.world_AB_paired) "A").
    apply (Basic.wf_data Basic.world_AB_paired).
    apply bas_reachable_wf.
    exists [Basic.Connect "A"; Basic.Connect "B"]. eexists.
    vm_compute. reflexivity.
Defined.

(** C9. The sweep, which the timer runs every 60000 ms, keeps exactly the
    waiting entries whose age is at most the timeout of 5 minutes, in their
    order; it leaves pair table, metadata and open sockets alone and emits
    no message (an expired entry is only logged). *)
Theorem C9_sweep_removes_exactly_expired :
  Enhanced.timeout = 300000 /\ Enhanced.sweep_interval = 60000
  /\ forall s now,
       let r := Enhanced.sweep now s in
       value r = inr tt
       /\ Enhanced.waitingQueue (final r)
          = filter (fun user => ~ (now - Enhanced.joinedAt user > Enhanced.timeout))
              (Enhanced.waitingQueue s)
       /\ (forall user,
             user ∈ Enhanced.waitingQueue s ->
             (user ∈ Enhanced.waitingQueue (final r)
              <-> ~ (now - Enhanced.joinedAt user > 5 * 60 * 1000)))
       /\ Enhanced.peers (final r) = Enhanced.peers s
       /\ Enhanced.userInfo (final r) = Enhanced.userInfo s
       /\ Enhanced.sockets (final r) = Enhanced.sockets s
       /\ emitted (trace r) = [].
Proof.
  split; [done|]. split; [done|]. intros s now r.
  destruct (enh_sweep_run now s) as (Hv & Hf & He). fold r in Hv, Hf, He.
  rewrite Hv, Hf, He. unfold Enhanced.swept. cbn.
  repeat split; try done.
  - by intros [? _]%list_elem_of_filter.
  - intros Hk. by apply list_elem_of_filter.
Qed.

Lemma C9_witness :
  let s := Enhanced.server Enhanced.world_A_waiting in
  (Enhanced.user_A ∈ Enhanced.waitingQueue (final (Enhanced.sweep 301000 s))
   <-> ~ (301000 - Enhanced.joinedAt Enhanced.user_A > 5 * 60 * 1000))
  /\ (Enhanced.user_A ∈ Enhanced.waitingQueue (final (Enhanced.sweep 301001 s))
      <-> ~ (301001 - Enhanced.joinedAt Enhanced.user_A > 5 * 60 * 1000)).
Proof.
  split.
  - apply (proj2 (proj2 C9_sweep_removes_exactly_expired)
             (Enhanced.server Enhanced.world_A_waiting) 301000).
    by left.
  - apply (proj2 (proj2 C9_sweep_removes_exactly_expired)
             (Enhanced.server Enhanced.world_A_waiting) 301001).
    by left.
Defined.

(** C10. In the enhanced server, a find-next request from an unpaired
    connection that is at the head of the waiting queue pairs it with
    itself: the pair table maps the id to itself and the connection is sent
    [match-found] twice, naming itself as peer, once as initiator and once
    not. *)
Theorem C10_find_next_at_head_pairs_with_itself :
  forall (s : Enhanced.State) k user h rest,
    Enhanced.valid_id k ->
    Enhanced.peers s !! k = None ->
    Enhanced.waitingQueue s = h :: rest ->
    Enhanced.socketId h = k ->
    let r := Enhanced.onFindNext k user s in
    value r = inr tt
    /\ Enhanced.peers (final r) = <[k := k]> (Enhanced.peers s)
    /\ Enhanced.peers (final r) !! k = Some k
    /\ Enhanced.waitingQueue (final r) = rest
    /\ emitted (trace r) = [(k, MatchFound k true); (k, MatchFound k false)].
Proof.
  intros s k user h rest Hk Hp Hq Hh r.
  destruct (enh_onFindNext_run k user s) as (Hv & Hf & He).
  fold r in Hv, Hf, He. rewrite Hv, Hf, He.
  unfold Enhanced.unpaired, Enhanced.left_msgs, Enhanced.matched,
    Enhanced.matched_msgs. rewrite Hp, Hq, Hh.
  assert (truthy (Some k) = true) as -> by by apply bool_decide_eq_true_2.
  cbn. rewrite insert_insert_eq, lookup_insert_eq. done.
Qed.

Lemma C10_witness :
  let r := Enhanced.onFindNext "A" Enhanced.user_A
             (Enhanced.server Enhanced.world_A_waiting) in
  value r = inr tt
  /\ Enhanced.peers (final r) = <["A" := "A"]> ∅
  /\ Enhanced.peers (final r) !! "A" = Some "A"
  /\ Enhanced.waitingQueue (final r) = []
  /\ emitted (trace r) = [("A", MatchFound "A" true); ("A", MatchFound "A" false)].
Proof.
  apply (C10_find_next_at_head_pairs_with_itself
           (Enhanced.server Enhanced.world_A_waiting) "A" Enhanced.user_A
           Enhanced.user_A []); [discriminate | reflexivity..].
Defined.

(** * Further properties of the two servers *)

(** ** The steps in closed form *)

Section EnhancedSteps.
Import Enhanced.

Lemma enh_step_connect w socket now :
  valid_id (id socket) -> id socket ∉ sockets (server w) ->
  listeners w !! id socket = None ->
  let user := MkUser (id socket) now (header_user_agent socket) in
  let s0 := set_userInfo (<[id socket := user]> (userInfo (server w)))
              (gateway_add (id socket) (server w)) in
  step w (Connect socket now)
  = Some (MkWorld (matched (id socket) user s0)
            (<[id socket := user]> (listeners w)),
          trace (onConnection socket now (gateway_add (id socket) (server w)))).
Proof.
  intros Hv Hfresh Hnone user s0. unfold step.
  rewrite decide_True by done. unfold completed.
  destruct (enh_onConnection_run socket now (gateway_add (id socket) (server w)))
    as (-> & -> & _). done.
Qed.

Lemma enh_step_connect_inv w socket now w' t :
  step w (Connect socket now) = Some (w', t) ->
  valid_id (id socket) /\ (id socket ∉ sockets (server w))
  /\ listeners w !! id socket = None.
Proof. unfold step. by destruct (decide _). Qed.

Lemma enh_step_signal w k payload user :
  listeners w !! k = Some user ->
  step w (SignalFrom k payload)
  = Some (w, trace (onSignal k payload (server w))).
Proof.
  intros Hk. unfold step. rewrite Hk. unfold completed.
  destruct (enh_onSignal_run k payload (server w)) as (-> & -> & _).
  by destruct w.
Qed.

Lemma enh_step_find_next w k user :
  listeners w !! k = Some user ->
  step w (FindNextFrom k)
  = Some (MkWorld (matched k user (unpaired k (server w))) (listeners w),
          trace (onFindNext k user (server w))).
Proof.
  intros Hk. unfold step. rewrite Hk. unfold completed.
  by destruct (enh_onFindNext_run k user (server w)) as (-> & -> & _).
Qed.

Lemma enh_step_disconnect w k reason user :
  listeners w !! k = Some user ->
  step w (DisconnectOf k reason)
  = Some (MkWorld (cleaned k (gateway_remove k (server w)))
            (delete k (listeners w)),
          trace (onDisconnect k reason (gateway_remove k (server w)))).
Proof.
  intros Hk. unfold step. rewrite Hk. unfold completed.
  by destruct (enh_onDisconnect_run k reason (gateway_remove k (server w)))
    as (-> & -> & _).
Qed.

Lemma enh_step_tick w now :
  step w (Tick now)
  = Some (MkWorld (swept now (server w)) (listeners w),
          trace (sweep now (server w))).
Proof.
  unfold step, completed.
  by destruct (enh_sweep_run now (server w)) as (-> & -> & _).
Qed.

Lemma enh_step_error w k message user :
  listeners w !! k = Some user ->
  step w (ErrorOn k message)
  = Some (w, trace (onError k message (server w))).
Proof. intros Hk. unfold step. rewrite Hk. by destruct w. Qed.

(** An event of a socket is served only while its listeners are
    registered. *)
Lemma enh_step_listener w e w' t k :
  step w e = Some (w', t) ->
  match e with
  | SignalFrom k' _ | FindNextFrom k' | DisconnectOf k' _ | ErrorOn k' _ =>
      k = k'
  | _ => False
  end ->
  is_Some (listeners w !! k).
Proof.
  destruct e; try done; intros Hstep ->; unfold step in Hstep;
    by destruct (listeners w !! _).
Qed.

Lemma enh_reachable_step w e w' t :
  reachable w -> step w e = Some (w', t) -> reachable w'.
Proof.
  intros (events & t0 & Hrun) Hstep. exists (events ++ [e])%list, (t0 ++ t)%list.
  revert Hrun. generalize start. generalize t0. clear t0.
  induction events as [|e0 events IH]; intros t0 w0 Hrun; cbn in Hrun |- *.
  - injection Hrun as -> <-. rewrite Hstep. by rewrite app_nil_r.
  - destruct (step w0 e0) as [[w1 t1]|]; [|done].
    destruct (run w1 events) as [[w2 t2]|] eqn:Hrest; [|done].
    injection Hrun as -> <-.
    rewrite (IH t2 w1 Hrest). by rewrite app_assoc.
Qed.

(** What a step that is taken has done. *)
Lemma enh_step_inv w e w' t :
  step w e = Some (w', t) ->
  match e with
  | Connect socket now =>
      let user := MkUser (id socket) now (header_user_agent socket) in
      let s0 := set_userInfo (<[id socket := user]> (userInfo (server w)))
                  (gateway_add (id socket) (server w)) in
      valid_id (id socket) /\ (id socket ∉ sockets (server w))
      /\ listeners w !! id socket = None
      /\ w' = MkWorld (matched (id socket) user s0)
                 (<[id socket := user]> (listeners w))
      /\ emitted t = matched_msgs (id socket) s0
  | SignalFrom k payload =>
      is_Some (listeners w !! k) /\ w' = w
      /\ emitted t =
           match live_peer k (server w) with
           | Some p => if nullish payload then [] else [(p, Signal payload)]
           | None => [(k, Error "No active peer connection")]
           end
  | FindNextFrom k =>
      exists user, listeners w !! k = Some user
      /\ w' = MkWorld (matched k user (unpaired k (server w))) (listeners w)
      /\ emitted t = (left_msgs k (server w)
                       ++ matched_msgs k (unpaired k (server w)))%list
  | DisconnectOf k reason =>
      is_Some (listeners w !! k)
      /\ w' = MkWorld (cleaned k (gateway_remove k (server w)))
                 (delete k (listeners w))
      /\ emitted t = gone_msgs k (gateway_remove k (server w))
  | ErrorOn k message =>
      is_Some (listeners w !! k) /\ w' = w /\ emitted t = []
  | Tick now =>
      w' = MkWorld (swept now (server w)) (listeners w) /\ emitted t = []
  end.
Proof.
  destruct e as [socket now|k payload|k|k reason|k message|now]; intros Hstep.
  - destruct (enh_step_connect_inv _ _ _ _ _ Hstep) as (Hv & Hf & Hn).
    rewrite (enh_step_connect w socket now Hv Hf Hn) in Hstep.
    injection Hstep as <- <-. repeat split; try done.
    by destruct (enh_onConnection_run socket now
                   (gateway_add (id socket) (server w))) as (_ & _ & ?).
  - destruct (listeners w !! k) as [user|] eqn:Hk;
      [|by unfold step in Hstep; rewrite Hk in Hstep].
    rewrite (enh_step_signal w k payload user Hk) in Hstep.
    injection Hstep as <- <-. repeat split; [by eexists|].
    by destruct (enh_onSignal_run k payload (server w)) as (_ & _ & ?).
  - destruct (listeners w !! k) as [user|] eqn:Hk;
      [|by unfold step in Hstep; rewrite Hk in Hstep].
    rewrite (enh_step_find_next w k user Hk) in Hstep.
    injection Hstep as <- <-. exists user. repeat split.
    by destruct (enh_onFindNext_run k user (server w)) as (_ & _ & ?).
  - destruct (listeners w !! k) as [user|] eqn:Hk;
      [|by unfold step in Hstep; rewrite Hk in Hstep].
    rewrite (enh_step_disconnect w k reason user Hk) in Hstep.
    injection Hstep as <- <-. repeat split; [by eexists|].
    by destruct (enh_onDisconnect_run k reason (gateway_remove k (server w)))
      as (_ & _ & ?).
  - destruct (listeners w !! k) as [user|] eqn:Hk;
      [|by unfold step in Hstep; rewrite Hk in Hstep].
    rewrite (enh_step_error w k message user Hk) in Hstep.
    injection Hstep as <- <-. repeat split; by eexists.
  - rewrite enh_step_tick in Hstep. injection Hstep as <- <-.
    split; [done|]. by destruct (enh_sweep_run now (server w)) as (_ & _ & ?).
Qed.

End EnhancedSteps.

Section BasicSteps.
Import Basic.

Lemma bas_step_connect w k :
  valid_id k -> k ∉ connected w ->
  step w (Connect k)
  = Some (MkWorld (matched k (server w)) ({[k]} ∪ connected w),
          trace (onConnection k (server w))).
Proof.
  intros Hv Hfresh. unfold step. rewrite decide_True by done.
  unfold completed.
  by destruct (bas_onConnection_run k (server w)) as (-> & -> & _).
Qed.

Lemma bas_step_find_next w k :
  k ∈ connected w ->
  step w (FindNextFrom k)
  = Some (MkWorld (matched k (released k (server w))) (connected w),
          trace (onFindNext k (server w))).
Proof.
  intros Hk. unfold step. rewrite decide_True by done. unfold completed.
  by destruct (bas_onFindNext_run k (server w)) as (-> & -> & _).
Qed.

Lemma bas_step_disconnect w k :
  k ∈ connected w ->
  step w (DisconnectOf k)
  = Some (MkWorld (released k (server w)) (connected w ∖ {[k]}),
          trace (onDisconnect k (server w))).
Proof.
  intros Hk. unfold step. rewrite decide_True by done. unfold completed.
  by destruct (bas_onDisconnect_run k (server w)) as (-> & -> & _).
Qed.

(** What a step that is taken has done. *)
Lemma bas_step_inv w e w' t :
  step w e = Some (w', t) ->
  match e with
  | Connect k =>
      valid_id k /\ (k ∉ connected w)
      /\ w' = MkWorld (matched k (server w)) ({[k]} ∪ connected w)
      /\ emitted t = matched_msgs k (server w)
  | SignalFrom k payload =>
      k ∈ connected w /\ w' = w
      /\ emitted t = signal_msgs k payload (server w)
  | FindNextFrom k =>
      k ∈ connected w
      /\ w' = MkWorld (matched k (released k (server w))) (connected w)
      /\ emitted t = (left_msgs k (server w)
                       ++ matched_msgs k (released k (server w)))%list
  | DisconnectOf k =>
      k ∈ connected w
      /\ w' = MkWorld (released k (server w)) (connected w ∖ {[k]})
      /\ emitted t = left_msgs k (server w)
  end.
Proof.
  destruct e as [k|k payload|k|k]; intros Hstep;
    (assert (Hg : is_Some (step w _)) by (by eexists));
    unfold step in Hg; destruct (decide _) as [Hc|] in Hg;
    try (by destruct Hg); clear Hg.
  - destruct Hc as [Hv Hf]. rewrite (bas_step_connect w k Hv Hf) in Hstep.
    injection Hstep as <- <-. repeat split; try done.
    by destruct (bas_onConnection_run k (server w)) as (_ & _ & ?).
  - unfold step in Hstep. rewrite decide_True in Hstep by done.
    unfold completed in Hstep.
    destruct (bas_onSignal_run k payload (server w)) as (Hf & Hr).
    unfold signal_msgs.
    destruct (value (onSignal k payload (server w))) as [e|[]] eqn:Hv; [done|].
    rewrite Hf in Hstep. injection Hstep as <- <-.
    split; [done|]. split; [by destruct w|].
    change (emitted (trace (onSignal k payload (server w)))
            = match peers (server w) !! k with
              | Some p => if truthy (Some p) then [(p, Signal payload)] else []
              | None => []
              end).
    set (em := emitted (trace (onSignal k payload (server w)))) in *.
    clearbody em.
    destruct (peers (server w) !! k) as [p|]; [|by destruct Hr].
    destruct (truthy (Some p)); [|by destruct Hr].
    destruct (nullish payload); [|by destruct Hr]. by destruct Hr as [[e He] _].
  - rewrite (bas_step_find_next w k Hc) in Hstep.
    injection Hstep as <- <-. repeat split; try done.
    by destruct (bas_onFindNext_run k (server w)) as (_ & _ & ?).
  - rewrite (bas_step_disconnect w k Hc) in Hstep.
    injection Hstep as <- <-. repeat split; try done.
    by destruct (bas_onDisconnect_run k (server w)) as (_ & _ & ?).
Qed.

Lemma bas_reachable_step w e w' t :
  reachable w -> step w e = Some (w', t) -> reachable w'.
Proof.
  intros (events & t0 & Hrun) Hstep. exists (events ++ [e])%list, (t0 ++ t)%list.
  revert Hrun. generalize start. generalize t0. clear t0.
  induction events as [|e0 events IH]; intros t0 w0 Hrun; cbn in Hrun |- *.
  - injection Hrun as -> <-. rewrite Hstep. by rewrite app_nil_r.
  - destruct (step w0 e0) as [[w1 t1]|]; [|done].
    destruct (run w1 events) as [[w2 t2]|] eqn:Hrest; [|done].
    injection Hrun as -> <-.
    rewrite (IH t2 w1 Hrest). by rewrite app_assoc.
Qed.

End BasicSteps.

(** ** The queue *)

(** X1. In both servers the waiting queue of a reachable world holds at most
    one entry: an entry is pushed only when the queue is empty, and every
    other operation shortens the queue or leaves it alone. *)
Theorem X1_queue_holds_at_most_one :
  (forall w, Enhanced.reachable w ->
     (length (Enhanced.waitingQueue (Enhanced.server w)) <= 1)%nat)
  /\ (forall w, Basic.reachable w ->
        (length (Basic.waitingQueue (Basic.server w)) <= 1)%nat).
Proof.
  split.
  - intros w Hw%enh_reachable_wf. apply Hw.
  - intros w Hw%bas_reachable_wf. apply Hw.
Qed.

Lemma X1_witness :
  (length (Enhanced.waitingQueue (Enhanced.server Enhanced.world_A_waiting))
   <= 1)%nat
  /\ (length (Basic.waitingQueue (Basic.server Basic.world_A_waiting)) <= 1)%nat.
Proof.
  split.
  - apply (proj1 X1_queue_holds_at_most_one Enhanced.world_A_waiting).
    exists [Enhanced.Connect Enhanced.socket_A 1000]. eexists.
    vm_compute. reflexivity.
  - apply (proj2 X1_queue_holds_at_most_one Basic.world_A_waiting).
    exists [Basic.Connect "A"]. eexists. vm_compute. reflexivity.
Defined.

(** ** Pairing with oneself *)

Section BasicIrreflexive.
Import Basic.

Lemma bas_step_irreflexive w e w' t :
  wf w -> (forall k, peers (server w) !! k <> Some k) ->
  step w e = Some (w', t) ->
  forall k, peers (server w') !! k <> Some k.
Proof.
  intros Hw Hirr Hstep.
  assert (Hmatched : forall s c k,
            wf (MkWorld s c) -> k ∉ waitingQueue s ->
            (forall a, peers s !! a <> Some a) ->
            forall a, peers (matched k s) !! a <> Some a).
  { intros s c k Hs Hk Hi a. unfold matched.
    destruct (waitingQueue s) as [|h rest] eqn:Hq; [apply Hi|].
    assert (h <> k) by (intros ->; apply Hk; by left).
    unfold paired, set_peers, set_waitingQueue. cbn [peers].
    destruct (decide (a = h)) as [->|].
    { rewrite lookup_insert_eq. congruence. }
    rewrite lookup_insert_ne by done.
    destruct (decide (a = k)) as [->|].
    { rewrite lookup_insert_eq. congruence. }
    rewrite lookup_insert_ne by done. apply Hi. }
  assert (Hreleased : forall k a, peers (released k (server w)) !! a <> Some a).
  { intros k a Ha%bas_released_sub. by apply (Hirr a). }
  pose proof (bas_step_inv w e w' t Hstep) as Hinv.
  destruct e as [k|k payload|k|k].
  - destruct Hinv as (Hv & Hf & -> & _). cbn [server].
    apply (Hmatched (server w) (connected w) k); [by destruct w | | done].
    intros Hin. apply Hf. by apply (wf_queue_open w Hw).
  - by destruct Hinv as (_ & -> & _).
  - destruct Hinv as (Hk & -> & _). cbn [server].
    apply (Hmatched _ (connected w) k); [|  |done].
    + apply bas_wf_released. by destruct w.
    + apply bas_released_absent; [apply Hw|].
      intros p. apply (bas_wf_partner_valid w k p Hw).
  - destruct Hinv as (Hk & -> & _). cbn [server]. apply Hreleased.
Qed.

Lemma bas_reachable_irreflexive w :
  reachable w -> forall k, peers (server w) !! k <> Some k.
Proof.
  intros (events & t & Hrun).
  assert (Hgen : forall events w0 w1 t,
            wf w0 -> (forall k, peers (server w0) !! k <> Some k) ->
            run w0 events = Some (w1, t) ->
            forall k, peers (server w1) !! k <> Some k).
  { clear. induction events as [|e events IH]; intros w0 w1 t Hw Hi Hrun;
      cbn in Hrun.
    - by injection Hrun as <- <-.
    - destruct (step w0 e) as [[w2 t2]|] eqn:Hstep; [|done].
      destruct (run w2 events) as [[w3 t3]|] eqn:Hrest; [|done].
      injection Hrun as <- <-. eapply IH; [| |done].
      + by eapply bas_step_wf.
      + by eapply bas_step_irreflexive. }
  eapply Hgen; [apply bas_wf_start | | done]. intros k. by cbn.
Qed.

End BasicIrreflexive.

(** X2. The basic server never pairs a connection with itself: in its
    reachable worlds no id is its own partner.  (A find-next request first
    takes the requester out of the queue; compare C10.) *)
Theorem X2_basic_never_pairs_with_itself :
  forall w, Basic.reachable w ->
    forall k, Basic.peers (Basic.server w) !! k <> Some k.
Proof. apply bas_reachable_irreflexive. Qed.

Lemma X2_witness :
  Basic.peers (Basic.server Basic.world_AB_paired) !! "A" = Some "B"
  /\ forall k, Basic.peers (Basic.server Basic.world_AB_paired) !! k <> Some k.
Proof.
  split; [reflexivity|].
  apply (X2_basic_never_pairs_with_itself Basic.world_AB_paired).
  exists [Basic.Connect "A"; Basic.Connect "B"]. eexists.
  vm_compute. reflexivity.
Defined.

(** X3. In the basic server a find-next request from a connection that is
    waiting changes nothing and emits nothing: the requester is taken out
    of the queue and put back. *)
Theorem X3_basic_find_next_while_waiting_is_idle :
  forall w k,
    Basic.reachable w -> k ∈ Basic.waitingQueue (Basic.server w) ->
    let r := Basic.onFindNext k (Basic.server w) in
    value r = inr tt /\ final r = Basic.server w /\ emitted (trace r) = [].
Proof.
  intros w k Hw%bas_reachable_wf Hk r.
  destruct (bas_onFindNext_run k (Basic.server w)) as (Hv & Hf & He).
  fold r in Hv, Hf, He. rewrite Hv, Hf, He. clear Hv Hf He. clearbody r.
  destruct Hw as [[Hs Hn Hd] Hsh _ _ _]. pose proof (Hd k Hk) as Hp.
  destruct (Basic.server w) as [q p].
  cbn [Basic.waitingQueue Basic.peers] in *.
  destruct q as [|h [|]]; [by apply elem_of_nil in Hk | | cbn in Hsh; lia].
  apply list_elem_of_singleton in Hk as ->.
  unfold Basic.left_msgs, Basic.released. cbn [Basic.peers]. rewrite Hp.
  unfold Basic.dequeued. cbn [Basic.waitingQueue Basic.indexOf].
  destruct (decide (h = h)); [|done]. rewrite decide_True by lia.
  done.
Qed.

Lemma X3_witness :
  value (Basic.onFindNext "A" (Basic.server Basic.world_A_waiting)) = inr tt
  /\ final (Basic.onFindNext "A" (Basic.server Basic.world_A_waiting))
     = Basic.server Basic.world_A_waiting
  /\ emitted (trace (Basic.onFindNext "A" (Basic.server Basic.world_A_waiting)))
     = [].
Proof.
  apply (X3_basic_find_next_while_waiting_is_idle Basic.world_A_waiting "A").
  - exists [Basic.Connect "A"]. eexists. vm_compute. reflexivity.
  - vm_compute. left.
Defined.

(** ** Metadata *)

Section EnhancedMetadata.
Import Enhanced.

Lemma enh_step_userInfo w e w' t :
  userInfo (server w) = listeners w -> step w e = Some (w', t) ->
  userInfo (server w') = listeners w'.
Proof.
  intros Hu Hstep. pose proof (enh_step_inv w e w' t Hstep) as Hinv.
  destruct e as [socket now|k payload|k|k reason|k message|now].
  - destruct Hinv as (_ & _ & _ & -> & _). cbn [server listeners].
    rewrite enh_matched_userInfo. cbn. by rewrite Hu.
  - by destruct Hinv as (_ & -> & _).
  - destruct Hinv as (user & _ & -> & _). cbn [server listeners].
    by rewrite enh_matched_userInfo, enh_unpaired_userInfo.
  - destruct Hinv as (_ & -> & _). cbn. by rewrite Hu.
  - by destruct Hinv as (_ & -> & _).
  - by destruct Hinv as (-> & _).
Qed.

Lemma enh_reachable_userInfo w :
  reachable w -> userInfo (server w) = listeners w.
Proof.
  intros (events & t & Hrun).
  assert (Hgen : forall events w0 w1 t,
            userInfo (server w0) = listeners w0 ->
            run w0 events = Some (w1, t) ->
            userInfo (server w1) = listeners w1).
  { clear. induction events as [|e events IH]; intros w0 w1 t Hu Hrun;
      cbn in Hrun.
    - by injection Hrun as <- <-.
    - destruct (step w0 e) as [[w2 t2]|] eqn:Hstep; [|done].
      destruct (run w2 events) as [[w3 t3]|] eqn:Hrest; [|done].
      injection Hrun as <- <-. eapply IH; [|done].
      by eapply enh_step_userInfo. }
  eapply Hgen; [|done]. done.
Qed.

End EnhancedMetadata.

(** X4. The enhanced server keeps metadata for exactly the open
    connections: in a reachable world [userInfo] has an entry for an id if
    and only if that socket is open, and the entry is the [user] object that
    was created when the socket connected (the one its listeners push back
    into the queue), filed under its own id. *)
Theorem X4_metadata_for_exactly_the_open_connections :
  forall w, Enhanced.reachable w ->
    (forall k, k ∈ Enhanced.sockets (Enhanced.server w)
               <-> is_Some (Enhanced.userInfo (Enhanced.server w) !! k))
    /\ (forall k user,
          Enhanced.userInfo (Enhanced.server w) !! k = Some user ->
          Enhanced.socketId user = k
          /\ Enhanced.listeners w !! k = Some user).
Proof.
  intros w Hw. pose proof (enh_reachable_userInfo w Hw) as Hu.
  apply enh_reachable_wf in Hw as [_ Hl Hc _]. rewrite Hu.
  split; [done|]. intros k user Hk. split; [by apply Hc | done].
Qed.

Lemma X4_witness :
  (forall k,
     k ∈ Enhanced.sockets (Enhanced.server Enhanced.world_AB_paired)
     <-> is_Some (Enhanced.userInfo
                    (Enhanced.server Enhanced.world_AB_paired) !! k))
  /\ (forall k user,
        Enhanced.userInfo (Enhanced.server Enhanced.world_AB_paired) !! k
        = Some user ->
        Enhanced.socketId user = k
        /\ Enhanced.listeners Enhanced.world_AB_paired !! k = Some user).
Proof.
  apply (X4_metadata_for_exactly_the_open_connections Enhanced.world_AB_paired).
  exists [Enhanced.Connect Enhanced.socket_A 1000;
          Enhanced.Connect Enhanced.socket_B 2000]. eexists.
  vm_compute. reflexivity.
Defined.

(** ** Where messages go *)

Section EnhancedTargets.
Import Enhanced.

Lemma enh_matched_msgs_target k s to m :
  (to, m) ∈ matched_msgs k s ->
  to = k \/ exists h, h ∈ waitingQueue s /\ to = socketId h.
Proof.
  unfold matched_msgs. destruct (waitingQueue s) as [|h rest].
  - intros [= -> _]%list_elem_of_singleton. by left.
  - destruct (truthy (Some (socketId h))).
    + intros [[= -> _]|[= -> _]%list_elem_of_singleton]%elem_of_cons.
      * right. exists h. split; [by left | done].
      * by left.
    + intros [= -> _]%list_elem_of_singleton. by left.
Qed.

Lemma enh_left_msgs_target k s to m :
  (to, m) ∈ left_msgs k s -> peers s !! k = Some to.
Proof.
  unfold left_msgs. destruct (peers s !! k) as [p|]; [|by intros ?%elem_of_nil].
  destruct (truthy (Some p)); [|by intros ?%elem_of_nil].
  by intros [= -> _]%list_elem_of_singleton.
Qed.

Lemma enh_live_peer_open k s p : live_peer k s = Some p -> p ∈ sockets s.
Proof.
  unfold live_peer. destruct (peers s !! k) as [c|]; [|done].
  destruct (truthy (Some c)); [|done]. cbn.
  destruct (bool_decide (c ∈ sockets s)) eqn:Hc; [|done].
  intros [= <-]. by apply bool_decide_eq_true_1 in Hc.
Qed.

Lemma enh_step_targets w e w' t to m :
  wf w -> step w e = Some (w', t) -> (to, m) ∈ emitted t ->
  to ∈ sockets (server w').
Proof.
  intros [Hi Hl Hc Hu] Hstep Hin.
  pose proof (enh_step_inv w e w' t Hstep) as Hinv.
  destruct e as [socket now|k payload|k|k reason|k message|now].
  - destruct Hinv as (_ & _ & _ & -> & He). rewrite He in Hin.
    cbn [server]. rewrite enh_matched_sockets. cbn.
    apply enh_matched_msgs_target in Hin as [->|(h & Hh & ->)].
    + apply elem_of_union_l. by apply elem_of_singleton.
    + apply elem_of_union_r. by apply (inv_queue_open _ Hi).
  - destruct Hinv as (Hk & -> & He). rewrite He in Hin.
    destruct (live_peer k (server w)) as [p|] eqn:Hp.
    + destruct (nullish payload); [by apply elem_of_nil in Hin|].
      apply list_elem_of_singleton in Hin. injection Hin as -> _.
      by apply (enh_live_peer_open k).
    + apply list_elem_of_singleton in Hin. injection Hin as -> _.
      by apply Hl.
  - destruct Hinv as (user & Hk & -> & He). rewrite He in Hin.
    cbn [server]. rewrite enh_matched_sockets, enh_unpaired_sockets.
    apply elem_of_app in Hin as [Hin|Hin].
    + apply enh_left_msgs_target in Hin.
      apply (inv_peers_open _ Hi to k), (inv_symmetric _ Hi), Hin.
    + apply enh_matched_msgs_target in Hin as [->|(h & Hh & ->)].
      * apply Hl. by eexists.
      * rewrite enh_unpaired_queue in Hh. by apply (inv_queue_open _ Hi).
  - destruct Hinv as (Hk & -> & He). rewrite He in Hin.
    unfold gone_msgs in Hin.
    destruct (live_peer k (gateway_remove k (server w))) as [p|] eqn:Hp;
      [|by apply elem_of_nil in Hin].
    apply list_elem_of_singleton in Hin. injection Hin as -> _.
    apply enh_live_peer_open in Hp. unfold cleaned. cbn.
    by rewrite enh_unpaired_sockets.
  - destruct Hinv as (_ & _ & He). rewrite He in Hin.
    by apply elem_of_nil in Hin.
  - destruct Hinv as (_ & He). rewrite He in Hin. by apply elem_of_nil in Hin.
Qed.

End EnhancedTargets.

Section BasicTargets.
Import Basic.

Lemma bas_matched_msgs_target k s to m :
  (to, m) ∈ matched_msgs k s -> to = k \/ to ∈ waitingQueue s.
Proof.
  unfold matched_msgs. destruct (waitingQueue s) as [|h rest].
  - by intros ?%elem_of_nil.
  - intros [[= -> _]|[= -> _]%list_elem_of_singleton]%elem_of_cons.
    + right. by left.
    + by left.
Qed.

Lemma bas_left_msgs_target k s to m :
  (to, m) ∈ left_msgs k s -> peers s !! k = Some to.
Proof.
  unfold left_msgs. destruct (peers s !! k) as [p|]; [|by intros ?%elem_of_nil].
  destruct (truthy (Some p)); [|by intros ?%elem_of_nil].
  by intros [= -> _]%list_elem_of_singleton.
Qed.

Lemma bas_step_targets w e w' t to m :
  wf w -> (forall k, peers (server w) !! k <> Some k) ->
  step w e = Some (w', t) -> (to, m) ∈ emitted t ->
  to ∈ connected w'.
Proof.
  intros Hw Hirr Hstep Hin.
  pose proof (bas_step_inv w e w' t Hstep) as Hinv.
  assert (Hpartner : forall k p, peers (server w) !! k = Some p ->
            p ∈ connected w).
  { intros k p Hp. eapply (wf_peers_open w Hw), (dm_symmetric _ (wf_data w Hw)), Hp. }
  destruct e as [k|k payload|k|k].
  - destruct Hinv as (_ & _ & -> & He). rewrite He in Hin. cbn.
    apply bas_matched_msgs_target in Hin as [->|Hh].
    + apply elem_of_union_l. by apply elem_of_singleton.
    + apply elem_of_union_r. by apply (wf_queue_open w Hw).
  - destruct Hinv as (Hk & -> & He). rewrite He in Hin.
    unfold signal_msgs in Hin.
    destruct (peers (server w) !! k) as [p|] eqn:Hp;
      [|by apply elem_of_nil in Hin].
    destruct (truthy (Some p)); [|by apply elem_of_nil in Hin].
    apply list_elem_of_singleton in Hin. injection Hin as -> _.
    by apply (Hpartner k).
  - destruct Hinv as (Hk & -> & He). rewrite He in Hin. cbn.
    apply elem_of_app in Hin as [Hin|Hin].
    + apply bas_left_msgs_target in Hin. by apply (Hpartner k).
    + apply bas_matched_msgs_target in Hin as [->|Hh]; [done|].
      apply (wf_queue_open w Hw).
      eapply elem_of_sublist; [done | apply bas_released_sublist].
  - destruct Hinv as (Hk & -> & He). rewrite He in Hin. cbn.
    apply bas_left_msgs_target in Hin.
    apply elem_of_difference. split; [by apply (Hpartner k)|].
    intros ->%elem_of_singleton. by apply (Hirr k).
Qed.

End BasicTargets.

(** X5. Neither server addresses a message to a connection that is closed:
    whatever a step from a reachable world emits goes to a socket that is
    open once the step is done (the newcomer, the requester, a queued
    connection or a recorded partner). *)
Theorem X5_messages_go_to_open_connections :
  (forall w e w' t to m,
     Enhanced.reachable w -> Enhanced.step w e = Some (w', t) ->
     (to, m) ∈ emitted t -> to ∈ Enhanced.sockets (Enhanced.server w'))
  /\ (forall w e w' t to m,
        Basic.reachable w -> Basic.step w e = Some (w', t) ->
        (to, m) ∈ emitted t -> to ∈ Basic.connected w').
Proof.
  split.
  - intros w e w' t to m Hw%enh_reachable_wf. by apply enh_step_targets.
  - intros w e w' t to m Hw.
    apply bas_step_targets;
      [by apply bas_reachable_wf | by apply bas_reachable_irreflexive].
Qed.

Lemma X5_witness :
  "A" ∈ Enhanced.sockets (Enhanced.server Enhanced.world_AB_paired)
  /\ "B" ∈ Basic.connected
             (Basic.MkWorld (Basic.MkState [] ∅) {["B"]}).
Proof.
  split.
  - eapply (proj1 X5_messages_go_to_open_connections
              Enhanced.world_A_waiting
              (Enhanced.Connect Enhanced.socket_B 2000)
              Enhanced.world_AB_paired _ "A" (MatchFound "B" true)).
    + exists [Enhanced.Connect Enhanced.socket_A 1000]. eexists.
      vm_compute. reflexivity.
    + vm_compute. reflexivity.
    + simpl. apply list_elem_of_here.
  - eapply (proj2 X5_messages_go_to_open_connections
              Basic.world_AB_paired (Basic.DisconnectOf "A")
              _ _ "B" PeerDisconnected).
    + exists [Basic.Connect "A"; Basic.Connect "B"]. eexists.
      vm_compute. reflexivity.
    + vm_compute. reflexivity.
    + simpl. apply list_elem_of_here.
Defined.

(** ** What a disconnection leaves behind *)

Section EnhancedDisconnect.
Import Enhanced.

Lemma enh_disconnect_gone w k reason w' t :
  wf w -> step w (DisconnectOf k reason) = Some (w', t) ->
  (k ∉ sockets (server w')) /\ ~ queued k (server w')
  /\ peers (server w') !! k = None
  /\ (forall a, peers (server w') !! a <> Some k)
  /\ userInfo (server w') !! k = None
  /\ listeners w' !! k = None.
Proof.
  intros Hw Hstep. pose proof (enh_step_wf _ _ _ _ Hw Hstep) as [Hi' _ _ _].
  destruct (enh_step_inv _ _ _ _ Hstep) as (_ & -> & _).
  cbn [server listeners] in *.
  assert (Hso : k ∉ sockets (cleaned k (gateway_remove k (server w)))).
  { unfold cleaned. cbn. rewrite enh_unpaired_sockets. cbn.
    intros [_ Hk]%elem_of_difference. apply Hk. by apply elem_of_singleton. }
  assert (Hpk : peers (cleaned k (gateway_remove k (server w))) !! k = None).
  { destruct (peers _ !! k) eqn:E; [|done]. destruct Hso.
    by eapply (inv_peers_open _ Hi'). }
  repeat split; try done.
  - intros (u & Hu & Hsid). apply Hso.
    apply (inv_queue_open _ Hi') in Hu. by rewrite Hsid in Hu.
  - intros a Ha. apply (inv_symmetric _ Hi') in Ha. congruence.
  - unfold cleaned. cbn. apply lookup_delete_eq.
  - apply lookup_delete_eq.
Qed.

Lemma enh_disconnect_partner w k reason w' t p :
  wf w -> step w (DisconnectOf k reason) = Some (w', t) ->
  peers (server w) !! k = Some p -> p <> k ->
  emitted t = [(p, PeerDisconnected)]
  /\ p ∈ sockets (server w') /\ peers (server w') !! p = None
  /\ ~ queued p (server w').
Proof.
  intros Hw Hstep Hp Hne. pose proof Hw as [Hi _ _ _].
  destruct (enh_step_inv _ _ _ _ Hstep) as (_ & -> & ->).
  pose proof (enh_inv_partner_valid _ _ _ Hi Hp) as Hvalid.
  pose proof (inv_symmetric _ Hi _ _ Hp) as Hpk.
  pose proof (inv_peers_open _ Hi _ _ Hpk) as Hopen.
  assert (Hopen' : p ∈ sockets (server w) ∖ {[k]}).
  { apply elem_of_difference. split; [done|]. by intros ?%elem_of_singleton. }
  destruct (server w) as [so q pe ui]. cbn in Hp, Hpk, Hopen, Hopen'.
  unfold gone_msgs, live_peer, cleaned, unpaired, gateway_remove, queued.
  cbn [server peers sockets waitingQueue userInfo set_userInfo
       set_waitingQueue set_peers].
  rewrite Hp, Hvalid. cbn [andb peers sockets waitingQueue].
  rewrite (bool_decide_eq_true_2 _ Hopen').
  repeat split; try done.
  - unfold set_peers. cbn [peers].
    rewrite lookup_delete_ne by done. apply lookup_delete_eq.
  - intros (u & [_ Hu]%list_elem_of_filter & Hsid).
    pose proof (inv_disjoint _ Hi u Hu) as Hd. cbn in Hd. congruence.
Qed.

Lemma enh_disconnect_quiet w k reason w' t :
  wf w -> step w (DisconnectOf k reason) = Some (w', t) ->
  peers (server w) !! k = None \/ peers (server w) !! k = Some k ->
  emitted t = [].
Proof.
  intros Hw Hstep Hp.
  destruct (enh_step_inv _ _ _ _ Hstep) as (_ & _ & ->).
  unfold gone_msgs, live_peer, gateway_remove. cbn [peers sockets].
  destruct Hp as [->| ->]; [done|].
  rewrite bool_decide_eq_false_2; [by rewrite andb_false_r|].
  intros [_ Hk]%elem_of_difference. apply Hk. by apply elem_of_singleton.
Qed.

End EnhancedDisconnect.

Section BasicDisconnect.
Import Basic.

Lemma bas_disconnect_gone w k w' t :
  wf w -> step w (DisconnectOf k) = Some (w', t) ->
  (k ∉ connected w') /\ (k ∉ waitingQueue (server w'))
  /\ peers (server w') !! k = None
  /\ (forall a, peers (server w') !! a <> Some k).
Proof.
  intros Hw Hstep. pose proof (bas_step_wf _ _ _ _ Hw Hstep) as Hw'.
  destruct (bas_step_inv _ _ _ _ Hstep) as (_ & -> & _).
  cbn [server connected] in *.
  assert (Hso : k ∉ connected w ∖ {[k]}).
  { intros [_ Hk]%elem_of_difference. apply Hk. by apply elem_of_singleton. }
  assert (Hpk : peers (released k (server w)) !! k = None).
  { destruct (peers _ !! k) eqn:E; [|done]. destruct Hso.
    by eapply (wf_peers_open _ Hw'). }
  repeat split; try done.
  - intros Hq. apply Hso. by apply (wf_queue_open _ Hw').
  - intros a Ha. apply (dm_symmetric _ (wf_data _ Hw')) in Ha.
    cbn [server] in Ha. congruence.
Qed.

Lemma bas_disconnect_partner w k w' t p :
  wf w -> (forall a, peers (server w) !! a <> Some a) ->
  step w (DisconnectOf k) = Some (w', t) ->
  peers (server w) !! k = Some p ->
  emitted t = [(p, PeerDisconnected)]
  /\ p ∈ connected w' /\ peers (server w') !! p = None
  /\ p ∉ waitingQueue (server w').
Proof.
  intros Hw Hirr Hstep Hp.
  assert (Hne : p <> k) by (intros ->; by apply (Hirr k)).
  destruct (bas_step_inv _ _ _ _ Hstep) as (_ & -> & ->).
  pose proof (dm_symmetric _ (wf_data _ Hw) _ _ Hp) as Hpk.
  assert (Hvalid : truthy (Some p) = true).
  { apply bool_decide_eq_true_2. by apply (bas_wf_partner_valid w k p). }
  cbn [server connected]. unfold left_msgs, released. rewrite Hp, Hvalid.
  unfold set_peers. cbn [peers waitingQueue].
  repeat split.
  - apply elem_of_difference. split; [by apply (wf_peers_open _ Hw p k)|].
    by intros ?%elem_of_singleton.
  - rewrite lookup_delete_ne by done. apply lookup_delete_eq.
  - intros Hq. apply (dm_disjoint _ (wf_data _ Hw)) in Hq. congruence.
Qed.

End BasicDisconnect.

(** X6. After a disconnection in a reachable world the id is gone from
    everywhere: it is not open, not queued, neither key nor value of the
    pair table, and (enhanced server) has no metadata.  A partner it had is
    sent [peer-disconnected], once, and is left open but neither paired nor
    queued: the servers do not look for a new match for it.  Nothing is
    emitted when there was no partner, or when the enhanced server had
    paired the connection with itself. *)
Theorem X6_disconnect_leaves_no_trace :
  (forall w k reason w' t,
     Enhanced.reachable w ->
     Enhanced.step w (Enhanced.DisconnectOf k reason) = Some (w', t) ->
     let s := Enhanced.server w in
     let s' := Enhanced.server w' in
     ((k ∉ Enhanced.sockets s') /\ ~ Enhanced.queued k s'
      /\ Enhanced.peers s' !! k = None
      /\ (forall a, Enhanced.peers s' !! a <> Some k)
      /\ Enhanced.userInfo s' !! k = None)
     /\ (forall p, Enhanced.peers s !! k = Some p -> p <> k ->
           emitted t = [(p, PeerDisconnected)]
           /\ p ∈ Enhanced.sockets s' /\ Enhanced.peers s' !! p = None
           /\ ~ Enhanced.queued p s')
     /\ (Enhanced.peers s !! k = None \/ Enhanced.peers s !! k = Some k ->
         emitted t = []))
  /\ (forall w k w' t,
        Basic.reachable w ->
        Basic.step w (Basic.DisconnectOf k) = Some (w', t) ->
        let s := Basic.server w in
        let s' := Basic.server w' in
        ((k ∉ Basic.connected w') /\ ~ Basic.queued k s'
         /\ Basic.peers s' !! k = None
         /\ (forall a, Basic.peers s' !! a <> Some k))
        /\ (forall p, Basic.peers s !! k = Some p ->
              emitted t = [(p, PeerDisconnected)]
              /\ p ∈ Basic.connected w' /\ Basic.peers s' !! p = None
              /\ ~ Basic.queued p s')
        /\ (Basic.peers s !! k = None -> emitted t = [])).
Proof.
  split.
  - intros w k reason w' t Hw%enh_reachable_wf Hstep s s'.
    split; [|split].
    + destruct (enh_disconnect_gone w k reason w' t Hw Hstep)
        as (? & ? & ? & ? & ? & _). done.
    + intros p Hp Hne. by apply (enh_disconnect_partner w k reason w' t p).
    + by apply (enh_disconnect_quiet w k reason w' t).
  - intros w k w' t Hw Hstep s s'.
    pose proof (bas_reachable_irreflexive w Hw) as Hirr.
    apply bas_reachable_wf in Hw.
    split; [|split].
    + by apply (bas_disconnect_gone w k w' t).
    + intros p Hp. by apply (bas_disconnect_partner w k w' t p).
    + intros Hp. destruct (bas_step_inv _ _ _ _ Hstep) as (_ & _ & ->).
      unfold Basic.left_msgs. fold s. by rewrite Hp.
Qed.

Lemma X6_witness :
  (emitted (trace (Enhanced.onDisconnect "A" "transport close"
                     (Enhanced.gateway_remove "A"
                        (Enhanced.server Enhanced.world_AB_paired))))
   = [("B", PeerDisconnected)])
  /\ (emitted (trace (Basic.onDisconnect "A"
                        (Basic.server Basic.world_AB_paired)))
      = [("B", PeerDisconnected)]).
Proof.
  split.
  - assert (Hreach : Enhanced.reachable Enhanced.world_AB_paired).
    { exists [Enhanced.Connect Enhanced.socket_A 1000;
              Enhanced.Connect Enhanced.socket_B 2000]. eexists.
      vm_compute. reflexivity. }
    assert (Hk : Enhanced.listeners Enhanced.world_AB_paired !! "A"
                 = Some Enhanced.user_A) by (vm_compute; reflexivity).
    destruct (proj1 X6_disconnect_leaves_no_trace
                Enhanced.world_AB_paired "A" "transport close" _ _ Hreach
                (enh_step_disconnect _ "A" "transport close" _ Hk))
      as (_ & Hpartner & _).
    apply (Hpartner "B"); [reflexivity | discriminate].
  - assert (Hreach : Basic.reachable Basic.world_AB_paired).
    { exists [Basic.Connect "A"; Basic.Connect "B"]. eexists.
      vm_compute. reflexivity. }
    assert (Hk : "A" ∈ Basic.connected Basic.world_AB_paired)
      by (vm_compute; reflexivity).
    destruct (proj2 X6_disconnect_leaves_no_trace
                Basic.world_AB_paired "A" _ _ Hreach
                (bas_step_disconnect _ "A" Hk))
      as (_ & Hpartner & _).
    apply (Hpartner "B"). reflexivity.
Defined.

(** ** What a find-next request leaves of the old pairing *)

(** X7. When a paired connection asks for the next peer in a reachable
    world, its old partner is sent [peer-disconnected] before anything else
    and ends up open but neither paired nor queued: the old partner is not
    re-entered into matchmaking and waits for nothing until it asks itself.
    (In the enhanced server the old partner may be the requester itself,
    which the statement leaves out.) *)
Theorem X7_find_next_leaves_partner_idle :
  (forall w k p w' t,
     Enhanced.reachable w ->
     Enhanced.step w (Enhanced.FindNextFrom k) = Some (w', t) ->
     Enhanced.peers (Enhanced.server w) !! k = Some p -> p <> k ->
     (exists rest, emitted t = (p, PeerDisconnected) :: rest)
     /\ p ∈ Enhanced.sockets (Enhanced.server w')
     /\ Enhanced.peers (Enhanced.server w') !! p = None
     /\ ~ Enhanced.queued p (Enhanced.server w'))
  /\ (forall w k p w' t,
        Basic.reachable w ->
        Basic.step w (Basic.FindNextFrom k) = Some (w', t) ->
        Basic.peers (Basic.server w) !! k = Some p ->
        (exists rest, emitted t = (p, PeerDisconnected) :: rest)
        /\ p ∈ Basic.connected w'
        /\ Basic.peers (Basic.server w') !! p = None
        /\ ~ Basic.queued p (Basic.server w')).
Proof.
  split.
  - intros w k p w' t Hw%enh_reachable_wf Hstep Hp Hne.
    pose proof Hw as [Hi Hl Hc _].
    destruct (enh_step_inv _ _ _ _ Hstep) as (user & Hk & -> & ->).
    pose proof (enh_inv_partner_valid _ _ _ Hi Hp) as Hvalid.
    pose proof (Enhanced.inv_symmetric _ Hi _ _ Hp) as Hpk.
    pose proof (Enhanced.inv_peers_open _ Hi _ _ Hpk) as Hopen.
    assert (Hp1 : Enhanced.peers (Enhanced.unpaired k (Enhanced.server w)) !! p
                  = None).
    { unfold Enhanced.unpaired. rewrite Hp, Hvalid.
      unfold Enhanced.set_peers. cbn [Enhanced.peers].
      rewrite lookup_delete_ne by done. apply lookup_delete_eq. }
    assert (Hnq : forall u, u ∈ Enhanced.waitingQueue (Enhanced.server w) ->
              Enhanced.socketId u <> p).
    { intros u Hu%(Enhanced.inv_disjoint _ Hi). congruence. }
    cbn [Enhanced.server].
    rewrite enh_matched_sockets, enh_unpaired_sockets.
    split; [|split; [done|]].
    { unfold Enhanced.left_msgs. rewrite Hp, Hvalid. by eexists. }
    unfold Enhanced.matched, Enhanced.queued.
    rewrite enh_unpaired_queue.
    destruct (Enhanced.waitingQueue (Enhanced.server w)) as [|h rest] eqn:Hq.
    + unfold Enhanced.enqueued, Enhanced.set_waitingQueue.
      cbn [Enhanced.peers Enhanced.waitingQueue]. rewrite enh_unpaired_queue, Hq.
      split; [done|].
      intros (u & ->%list_elem_of_singleton & Hsid).
      rewrite (Hc k user Hk) in Hsid. congruence.
    + assert (rest = []) as ->.
      { pose proof (Enhanced.inv_short _ Hi) as Hsh. rewrite Hq in Hsh.
        destruct rest; [done | cbn in Hsh; lia]. }
      assert (Hh : Enhanced.socketId h <> p) by (apply Hnq; by left).
      destruct (truthy (Some (Enhanced.socketId h))).
      * unfold Enhanced.paired, Enhanced.set_peers, Enhanced.set_waitingQueue.
        cbn [Enhanced.peers Enhanced.waitingQueue].
        rewrite !lookup_insert_ne by done.
        split; [done|]. by intros (u & ?%elem_of_nil & _).
      * unfold Enhanced.enqueued, Enhanced.set_waitingQueue.
        cbn [Enhanced.peers Enhanced.waitingQueue].
        split; [done|].
        intros (u & ->%list_elem_of_singleton & Hsid).
        rewrite (Hc k user Hk) in Hsid. congruence.
  - intros w k p w' t Hw Hstep Hp.
    pose proof (bas_reachable_irreflexive w Hw) as Hirr.
    apply bas_reachable_wf in Hw.
    assert (Hne : p <> k) by (intros ->; by apply (Hirr k)).
    destruct (bas_step_inv _ _ _ _ Hstep) as (Hk & -> & ->).
    pose proof (Basic.dm_symmetric _ (Basic.wf_data _ Hw) _ _ Hp) as Hpk.
    assert (Hvalid : truthy (Some p) = true).
    { apply bool_decide_eq_true_2. by apply (bas_wf_partner_valid w k p). }
    assert (Hrel : Basic.released k (Basic.server w)
                   = Basic.set_peers
                       (delete k (delete p (Basic.peers (Basic.server w))))
                       (Basic.server w)).
    { unfold Basic.released. by rewrite Hp, Hvalid. }
    assert (Hnq : p ∉ Basic.waitingQueue (Basic.server w)).
    { intros Hq%(Basic.dm_disjoint _ (Basic.wf_data _ Hw)). congruence. }
    cbn [Basic.server Basic.connected].
    split; [|split; [by apply (Basic.wf_peers_open _ Hw p k)|]].
    { unfold Basic.left_msgs. rewrite Hp, Hvalid. by eexists. }
    rewrite Hrel. unfold Basic.matched, Basic.queued, Basic.set_peers.
    cbn [Basic.waitingQueue Basic.peers].
    destruct (Basic.waitingQueue (Basic.server w)) as [|h rest] eqn:Hq.
    + unfold Basic.enqueued, Basic.set_waitingQueue.
      cbn [Basic.peers Basic.waitingQueue].
      split.
      * rewrite lookup_delete_ne by done. apply lookup_delete_eq.
      * by intros ->%list_elem_of_singleton.
    + assert (Hh : h <> p) by (intros ->; apply Hnq; by left).
      unfold Basic.paired, Basic.set_peers, Basic.set_waitingQueue.
      cbn [Basic.peers Basic.waitingQueue].
      rewrite !lookup_insert_ne by done.
      split.
      * rewrite lookup_delete_ne by done. apply lookup_delete_eq.
      * intros Hin. apply Hnq. by right.
Qed.

Lemma X7_witness :
  (Enhanced.peers
     (final (Enhanced.onFindNext "A" Enhanced.user_A
               (Enhanced.server Enhanced.world_AB_paired))) !! "B" = None)
  /\ (Basic.peers
        (final (Basic.onFindNext "A" (Basic.server Basic.world_AB_paired)))
      !! "B" = None).
Proof.
  split.
  - assert (Hreach : Enhanced.reachable Enhanced.world_AB_paired).
    { exists [Enhanced.Connect Enhanced.socket_A 1000;
              Enhanced.Connect Enhanced.socket_B 2000]. eexists.
      vm_compute. reflexivity. }
    assert (Hk : Enhanced.listeners Enhanced.world_AB_paired !! "A"
                 = Some Enhanced.user_A) by (vm_compute; reflexivity).
    destruct (proj1 X7_find_next_leaves_partner_idle
                Enhanced.world_AB_paired "A" "B" _ _ Hreach
                (enh_step_find_next _ "A" _ Hk))
      as (_ & _ & Hidle & _); [reflexivity | discriminate |].
    destruct (enh_onFindNext_run "A" Enhanced.user_A
                (Enhanced.server Enhanced.world_AB_paired)) as (_ & -> & _).
    exact Hidle.
  - assert (Hreach : Basic.reachable Basic.world_AB_paired).
    { exists [Basic.Connect "A"; Basic.Connect "B"]. eexists.
      vm_compute. reflexivity. }
    assert (Hk : "A" ∈ Basic.connected Basic.world_AB_paired)
      by (vm_compute; reflexivity).
    destruct (proj2 X7_find_next_leaves_partner_idle
                Basic.world_AB_paired "A" "B" _ _ Hreach
                (bas_step_find_next _ "A" Hk))
      as (_ & _ & Hidle & _); [reflexivity |].
    destruct (bas_onFindNext_run "A" (Basic.server Basic.world_AB_paired))
      as (_ & -> & _).
    exact Hidle.
Defined.

(** ** Exceptions *)


(** X9. In the basic server exactly one thing throws: a signal with a
    payload of [null] or [undefined] from a connection that has a partner,
    where [Object.keys(payload)] is evaluated for the log line.  Nothing
    catches it, nothing is relayed, and the run has no next world.  The
    other handlers, and a signal in any other case, return normally. *)
Theorem X9_basic_throws_only_on_null_signal :
  forall s : Basic.State,
    (forall k payload,
       (exists e, value (Basic.onSignal k payload s) = inl e)
       <-> truthy (Basic.peers s !! k) = true /\ nullish payload = true)
    /\ (forall k payload,
          (exists e, value (Basic.onSignal k payload s) = inl e) ->
          emitted (trace (Basic.onSignal k payload s)) = []
          /\ forall c, k ∈ c ->
               Basic.step (Basic.MkWorld s c) (Basic.SignalFrom k payload)
               = None)
    /\ (forall k, value (Basic.onConnection k s) = inr tt)
    /\ (forall k, value (Basic.onFindNext k s) = inr tt)
    /\ (forall k, value (Basic.onDisconnect k s) = inr tt).
Proof.
  intros s.
  assert (Hsig : forall k payload,
            (truthy (Basic.peers s !! k) = true /\ nullish payload = true ->
             (exists e, value (Basic.onSignal k payload s) = inl e)
             /\ emitted (trace (Basic.onSignal k payload s)) = [])
            /\ (~ (truthy (Basic.peers s !! k) = true /\ nullish payload = true)
                -> value (Basic.onSignal k payload s) = inr tt)).
  { intros k payload.
    destruct (bas_onSignal_run k payload s) as (_ & Hr).
    set (r := Basic.onSignal k payload s) in *. clearbody r.
    destruct (Basic.peers s !! k) as [p|]; [|by split; [intros [[=] _] | destruct Hr]].
    change (truthy (Some p)) with (bool_decide (p ≠ EmptyString)) in *.
    destruct (bool_decide (p ≠ EmptyString));
      [|by split; [intros [[=] _] | destruct Hr]].
    destruct (nullish payload).
    - split; [done|]. intros Hn. by destruct Hn.
    - split; [by intros [_ [=]] | by destruct Hr]. }
  repeat apply conj.
  - intros k payload. split.
    + intros [e He].
      destruct (decide (truthy (Basic.peers s !! k) = true
                        /\ nullish payload = true)) as [|Hn]; [done|].
      apply (proj2 (Hsig k payload)) in Hn. congruence.
    + intros Hn. by apply (proj1 (Hsig k payload)).
  - intros k payload [e He]. split.
    + destruct (decide (truthy (Basic.peers s !! k) = true
                        /\ nullish payload = true)) as [Hy|Hn].
      * by apply (proj1 (Hsig k payload)).
      * apply (proj2 (Hsig k payload)) in Hn. congruence.
    + intros c Hc. unfold Basic.step.
      rewrite decide_True by done. unfold Basic.completed.
      cbn [Basic.server]. by rewrite He.
  - intros k. apply bas_onConnection_run.
  - intros k. apply bas_onFindNext_run.
  - intros k. apply bas_onDisconnect_run.
Qed.

Lemma X9_witness :
  Basic.step Basic.world_AB_paired (Basic.SignalFrom "A" JsNull) = None.
Proof.
  destruct (X9_basic_throws_only_on_null_signal
              (Basic.server Basic.world_AB_paired)) as (Hiff & Hthrow & _).
  apply (proj2 (Hthrow "A" JsNull
                  (proj2 (Hiff "A" JsNull) (conj eq_refl eq_refl)))).
  vm_compute. reflexivity.
Defined.

(** ** The counters of the health endpoint *)

Section Health.
Import Enhanced.

Lemma enh_inv_counts s :
  inv s ->
  (length (waitingQueue s) + size (peers s) <= size (sockets s))%nat.
Proof.
  intros [Hs Hd Hsh Hpo Hqo Hv].
  rewrite <- (size_dom (D := gset string) (peers s)).
  assert (Hsub : dom (peers s) ⊆ sockets s).
  { intros a [b Hab]%elem_of_dom. by eapply Hpo. }
  destruct (waitingQueue s) as [|u [|]] eqn:Hq; [| |cbn in Hsh; lia].
  - cbn. by apply subseteq_size.
  - assert (Hu : u ∈ [u]) by by left.
    assert (Hdis : {[socketId u]} ## dom (peers s)).
    { apply disjoint_singleton_l. rewrite not_elem_of_dom. by apply Hd. }
    pose proof (size_union (C := gset string) {[socketId u]}
                  (dom (peers s)) Hdis) as Hsz.
    rewrite size_singleton in Hsz.
    assert (Hle : (size ({[socketId u]} ∪ dom (peers s))
                   <= size (sockets s))%nat).
    { apply subseteq_size. apply union_subseteq. split; [|done].
      apply singleton_subseteq_l. by apply Hqo. }
    cbn. lia.
Qed.

(** A symmetric pair table without fixed point has an even number of
    entries. *)
Lemma symmetric_irreflexive_even (m : gmap string string) :
  symmetric m -> (forall k, m !! k <> Some k) -> Nat.Even (size m).
Proof.
  remember (size m) as n eqn:Hn. revert m Hn.
  induction n as [n IH] using lt_wf_ind. intros m Hn Hs Hirr.
  destruct (map_choose_or_empty m) as [(a & b & Hab)| ->].
  - pose proof (Hs a b Hab) as Hba.
    assert (Hne : a <> b) by (intros ->; by apply (Hirr b)).
    assert (Hsize : size m = S (S (size (delete a (delete b m))))).
    { pose proof (map_size_delete b m) as H1. rewrite Hba in H1.
      pose proof (map_size_delete a (delete b m)) as H2.
      rewrite lookup_delete_ne, Hab in H2 by done.
      assert (size m <> 0)%nat by (apply map_size_non_empty_iff; by intros ->).
      assert (size (delete b m) <> 0)%nat.
      { apply map_size_non_empty_iff. intros He.
        pose proof (lookup_delete_ne m b a) as Hl.
        rewrite He, lookup_empty, Hab in Hl. by discriminate Hl. }
      lia. }
    destruct (IH (size (delete a (delete b m)))) with (m := delete a (delete b m))
      as [c Hc]; [lia | done | by apply symmetric_unpair | |].
    + intros k [_ [_ Hk]%lookup_delete_Some]%lookup_delete_Some.
      by apply (Hirr k).
    + exists (S c). lia.
  - exists 0%nat. by rewrite Hn, map_size_empty.
Qed.

End Health.

(** X10. The counters the health endpoint reports of a reachable world are
    consistent: at most one connection waits, and the waiting connections
    together with twice the reported pairs never exceed the active
    connections (everybody queued or paired is open, and nobody is
    both). *)
Theorem X10_health_counters_are_consistent :
  forall w timestamp,
    Enhanced.reachable w ->
    let h := Enhanced.health timestamp (Enhanced.server w) in
    (Enhanced.health_waitingQueue h <= 1)%nat
    /\ (inject_Z (Z.of_nat (Enhanced.health_waitingQueue h))
        + 2 * Enhanced.health_activePairs h
        <= inject_Z (Z.of_nat (Enhanced.health_activeConnections h)))%Q.
Proof.
  intros w timestamp [Hi _ _ _]%enh_reachable_wf h. split.
  - apply Hi.
  - pose proof (enh_inv_counts _ Hi) as Hc.
    unfold h, Enhanced.health. cbn [Enhanced.health_waitingQueue
      Enhanced.health_activePairs Enhanced.health_activeConnections].
    unfold Qle, Qplus, Qmult, inject_Z. cbn [Qnum Qden]. lia.
Qed.

Lemma X10_witness :
  (Enhanced.health_waitingQueue
     (Enhanced.health "2024-01-01T00:00:00.000Z"
        (Enhanced.server Enhanced.world_AB_paired)) <= 1)%nat
  /\ (inject_Z (Z.of_nat (Enhanced.health_waitingQueue
                            (Enhanced.health "2024-01-01T00:00:00.000Z"
                               (Enhanced.server Enhanced.world_AB_paired))))
      + 2 * Enhanced.health_activePairs
              (Enhanced.health "2024-01-01T00:00:00.000Z"
                 (Enhanced.server Enhanced.world_AB_paired))
      <= inject_Z (Z.of_nat (Enhanced.health_activeConnections
                               (Enhanced.health "2024-01-01T00:00:00.000Z"
                                  (Enhanced.server Enhanced.world_AB_paired)))))%Q.
Proof.
  apply (X10_health_counters_are_consistent Enhanced.world_AB_paired
           "2024-01-01T00:00:00.000Z").
  exists [Enhanced.Connect Enhanced.socket_A 1000;
          Enhanced.Connect Enhanced.socket_B 2000]. eexists.
  vm_compute. reflexivity.
Defined.

(** X11. The health endpoint reports a whole number of pairs as long as no
    connection is paired with itself; a connection that asked for the next
    peer while it was the one waiting is, and then the endpoint reports half
    a pair. *)
Theorem X11_health_pairs_whole_unless_self_paired :
  (forall w timestamp,
     Enhanced.reachable w ->
     (forall k, Enhanced.peers (Enhanced.server w) !! k <> Some k) ->
     exists n : nat,
       (Enhanced.health_activePairs
          (Enhanced.health timestamp (Enhanced.server w))
        == inject_Z (Z.of_nat n))%Q)
  /\ (exists w,
        Enhanced.reachable w
        /\ forall timestamp,
             (Enhanced.health_activePairs
                (Enhanced.health timestamp (Enhanced.server w)) == 1 # 2)%Q).
Proof.
  split.
  - intros w timestamp [Hi _ _ _]%enh_reachable_wf Hirr.
    destruct (symmetric_irreflexive_even _ (Enhanced.inv_symmetric _ Hi) Hirr)
      as [n Hn].
    exists n. unfold Enhanced.health. cbn [Enhanced.health_activePairs].
    rewrite Hn. unfold Qeq, inject_Z. cbn [Qnum Qden]. lia.
  - exists (Enhanced.MkWorld
              (Enhanced.MkState {["A"]} [] {["A" := "A"]}
                 {["A" := Enhanced.user_A]})
              {["A" := Enhanced.user_A]}).
    split.
    + exists [Enhanced.Connect Enhanced.socket_A 1000;
              Enhanced.FindNextFrom "A"]. eexists.
      vm_compute. reflexivity.
    + intros timestamp. vm_compute. reflexivity.
Qed.

Lemma X11_witness :
  exists n : nat,
    (Enhanced.health_activePairs
       (Enhanced.health "2024-01-01T00:00:00.000Z"
          (Enhanced.server Enhanced.world_AB_paired))
     == inject_Z (Z.of_nat n))%Q.
Proof.
  apply (proj1 X11_health_pairs_whole_unless_self_paired
           Enhanced.world_AB_paired).
  - exists [Enhanced.Connect Enhanced.socket_A 1000;
            Enhanced.Connect Enhanced.socket_B 2000]. eexists.
    vm_compute. reflexivity.
  - intros k Hk. cbn in Hk.
    destruct (decide (k = "A")) as [->|]; [vm_compute in Hk; discriminate|].
    destruct (decide (k = "B")) as [->|]; [vm_compute in Hk; discriminate|].
    rewrite lookup_insert_ne, lookup_singleton_ne in Hk by done.
    discriminate.
Defined.

(** ** The sweep and later connections *)

(** X12. A connection that the sweep takes out of the queue is not matched
    with whoever connects next: the newcomer is queued and told to wait,
    while the swept connection stays open, unpaired, out of the queue, and
    is told nothing. *)
Theorem X12_swept_connection_is_not_matched :
  forall w user now socket now',
    Enhanced.reachable w ->
    Enhanced.waitingQueue (Enhanced.server w) = [user] ->
    now - Enhanced.joinedAt user > Enhanced.timeout ->
    Enhanced.valid_id (Enhanced.id socket) ->
    Enhanced.id socket ∉ Enhanced.sockets (Enhanced.server w) ->
    let newcomer :=
      Enhanced.MkUser (Enhanced.id socket) now'
        (Enhanced.header_user_agent socket) in
    exists w' t,
      Enhanced.run w [Enhanced.Tick now; Enhanced.Connect socket now']
      = Some (w', t)
      /\ emitted t = [(Enhanced.id socket, WaitingForPeer)]
      /\ Enhanced.waitingQueue (Enhanced.server w') = [newcomer]
      /\ Enhanced.peers (Enhanced.server w') = Enhanced.peers (Enhanced.server w)
      /\ Enhanced.socketId user ∈ Enhanced.sockets (Enhanced.server w')
      /\ Enhanced.peers (Enhanced.server w') !! Enhanced.socketId user = None
      /\ ~ Enhanced.queued (Enhanced.socketId user) (Enhanced.server w').
Proof.
  intros w user now socket now' Hw%enh_reachable_wf Hq Hexp Hv Hfresh newcomer.
  pose proof Hw as [Hi Hl _ _].
  assert (Hu : user ∈ Enhanced.waitingQueue (Enhanced.server w))
    by (rewrite Hq; by left).
  pose proof (Enhanced.inv_queue_open _ Hi _ Hu) as Hopen.
  pose proof (Enhanced.inv_disjoint _ Hi _ Hu) as Hunp.
  assert (Hnone : Enhanced.listeners w !! Enhanced.id socket = None).
  { destruct (Enhanced.listeners w !! Enhanced.id socket) eqn:E; [|done].
    destruct Hfresh. apply Hl. by eexists. }
  assert (Hswept : Enhanced.swept now (Enhanced.server w)
                   = Enhanced.set_waitingQueue [] (Enhanced.server w)).
  { unfold Enhanced.swept. rewrite Hq.
    rewrite filter_cons_False by (intros Hn; by apply Hn). done. }
  cbn [Enhanced.run]. rewrite enh_step_tick, Hswept.
  rewrite (enh_step_connect _ socket now');
    [|done | by destruct (Enhanced.server w) | done].
  eexists _, _. split; [reflexivity|].
  destruct (enh_sweep_run now (Enhanced.server w)) as (_ & _ & Hes).
  destruct (enh_onConnection_run socket now'
              (Enhanced.gateway_add (Enhanced.id socket)
                 (Enhanced.set_waitingQueue [] (Enhanced.server w))))
    as (_ & _ & Hec).
  cbn [Enhanced.server]. rewrite emitted_app, Hes, app_nil_r, Hec.
  destruct (Enhanced.server w) as [so q p ui]. cbn in *.
  repeat apply conj; try done.
  - apply elem_of_union_r. done.
  - intros (u & ->%list_elem_of_singleton & Hsid). cbn in Hsid.
    apply Hfresh. by rewrite Hsid.
Qed.

Lemma X12_witness :
  exists w' t,
    Enhanced.run Enhanced.world_A_waiting
      [Enhanced.Tick 301001; Enhanced.Connect Enhanced.socket_B 302000]
    = Some (w', t)
    /\ emitted t = [("B", WaitingForPeer)]
    /\ Enhanced.waitingQueue (Enhanced.server w')
       = [Enhanced.MkUser "B" 302000 None]
    /\ Enhanced.peers (Enhanced.server w')
       = Enhanced.peers (Enhanced.server Enhanced.world_A_waiting)
    /\ "A" ∈ Enhanced.sockets (Enhanced.server w')
    /\ Enhanced.peers (Enhanced.server w') !! "A" = None
    /\ ~ Enhanced.queued "A" (Enhanced.server w').
Proof.
  apply (X12_swept_connection_is_not_matched Enhanced.world_A_waiting
           Enhanced.user_A 301001 Enhanced.socket_B 302000).
  - exists [Enhanced.Connect Enhanced.socket_A 1000]. eexists.
    vm_compute. reflexivity.
  - reflexivity.
  - vm_compute. reflexivity.
  - discriminate.
  - intros Hin. vm_compute in Hin. discriminate.
Defined.

(** X13. Sweeping twice is sweeping once, at the later of the two times:
    the second sweep removes what the first kept and has expired since, and
    neither emits anything. *)
Theorem X13_sweeps_compose :
  forall (s : Enhanced.State) now1 now2,
    final (Enhanced.sweep now2 (final (Enhanced.sweep now1 s)))
    = final (Enhanced.sweep (Z.max now1 now2) s)
    /\ emitted (trace (Enhanced.sweep now1 s)) = []
    /\ emitted (trace (Enhanced.sweep now2 (final (Enhanced.sweep now1 s)))) = [].
Proof.
  intros s now1 now2.
  destruct (enh_sweep_run now1 s) as (_ & Hf1 & He1).
  destruct (enh_sweep_run now2 (final (Enhanced.sweep now1 s)))
    as (_ & Hf2 & He2).
  destruct (enh_sweep_run (Z.max now1 now2) s) as (_ & Hf3 & _).
  rewrite Hf2, He2, He1, Hf3, Hf1. split; [|done].
  unfold Enhanced.swept, Enhanced.set_waitingQueue.
  cbn [Enhanced.waitingQueue Enhanced.sockets Enhanced.peers Enhanced.userInfo].
  f_equal. rewrite list_filter_filter. apply list_filter_iff.
  intros user. lia.
Qed.

(** ** Two partners who both ask for the next peer *)

Lemma pair_restored (m : gmap string string) k p :
  m !! k = Some p -> m !! p = Some k ->
  <[k := p]> (<[p := k]> (delete p (delete k m))) = m.
Proof.
  intros Hk Hp. apply map_eq. intros i.
  destruct (decide (i = k)) as [->|]; [by rewrite lookup_insert_eq|].
  rewrite lookup_insert_ne by done.
  destruct (decide (i = p)) as [->|]; [by rewrite lookup_insert_eq|].
  rewrite lookup_insert_ne by done. by rewrite !lookup_delete_ne.
Qed.

(** X14. When nobody is waiting and both partners of a pair ask for the
    next peer, one after the other, they get each other again: the pair
    table ends as it began, the queue is empty again, and the one who asked
    first, having waited, is now the initiator. *)
Theorem X14_partners_who_both_ask_meet_again :
  (forall w k p,
     Enhanced.reachable w ->
     Enhanced.peers (Enhanced.server w) !! k = Some p -> p <> k ->
     Enhanced.waitingQueue (Enhanced.server w) = [] ->
     exists w' t,
       Enhanced.run w [Enhanced.FindNextFrom k; Enhanced.FindNextFrom p]
       = Some (w', t)
       /\ emitted t = [(p, PeerDisconnected); (k, WaitingForPeer);
                       (k, MatchFound p true); (p, MatchFound k false)]
       /\ Enhanced.peers (Enhanced.server w') = Enhanced.peers (Enhanced.server w)
       /\ Enhanced.waitingQueue (Enhanced.server w') = [])
  /\ (forall w k p,
        Basic.reachable w ->
        Basic.peers (Basic.server w) !! k = Some p ->
        Basic.waitingQueue (Basic.server w) = [] ->
        exists w' t,
          Basic.run w [Basic.FindNextFrom k; Basic.FindNextFrom p]
          = Some (w', t)
          /\ emitted t = [(p, PeerDisconnected);
                          (k, MatchFound p true); (p, MatchFound k false)]
          /\ Basic.peers (Basic.server w') = Basic.peers (Basic.server w)
          /\ Basic.waitingQueue (Basic.server w') = []).
Proof.
  split.
  - intros w k p Hw%enh_reachable_wf Hp Hne Hq.
    pose proof Hw as [Hi Hl Hc _].
    pose proof (Enhanced.inv_symmetric _ Hi _ _ Hp) as Hpk.
    destruct (proj1 (Hl k)) as [uk Hk]; [by eapply Enhanced.inv_peers_open|].
    destruct (proj1 (Hl p)) as [up Hup]; [by eapply Enhanced.inv_peers_open|].
    pose proof (Hc k uk Hk) as Hsid.
    pose proof (enh_inv_partner_valid _ _ _ Hi Hp) as Hvp.
    pose proof (enh_inv_partner_valid _ _ _ Hi Hpk) as Hvk.
    cbn [Enhanced.run].
    rewrite (enh_step_find_next w k uk Hk).
    rewrite (enh_step_find_next _ p up) by done.
    eexists _, _. split; [reflexivity|]. cbn [Enhanced.server].
    destruct (enh_onFindNext_run k uk (Enhanced.server w)) as (_ & _ & He1).
    destruct (enh_onFindNext_run p up
                (Enhanced.matched k uk
                   (Enhanced.unpaired k (Enhanced.server w))))
      as (_ & _ & He2).
    rewrite emitted_app, He1, app_nil_r, He2. clear He1 He2.
    destruct (Enhanced.server w) as [so q pe ui]. cbn in Hp, Hpk, Hq. subst q.
    unfold Enhanced.left_msgs, Enhanced.matched_msgs, Enhanced.matched,
      Enhanced.unpaired, Enhanced.paired, Enhanced.enqueued.
    cbn [Enhanced.peers Enhanced.waitingQueue Enhanced.set_peers
         Enhanced.set_waitingQueue Enhanced.sockets Enhanced.userInfo app].
    rewrite Hp, Hvp.
    cbn [Enhanced.peers Enhanced.waitingQueue Enhanced.set_peers
         Enhanced.set_waitingQueue Enhanced.sockets Enhanced.userInfo app].
    rewrite lookup_delete_ne, lookup_delete_eq by done.
    cbn [Enhanced.peers Enhanced.waitingQueue Enhanced.set_peers
         Enhanced.set_waitingQueue Enhanced.sockets Enhanced.userInfo app].
    rewrite Hsid, Hvk.
    cbn [Enhanced.peers Enhanced.waitingQueue Enhanced.set_peers
         Enhanced.set_waitingQueue Enhanced.sockets Enhanced.userInfo app].
    repeat apply conj; try done.
    rewrite (delete_delete pe k p). by apply pair_restored.
  - intros w k p Hw Hp Hq.
    pose proof (bas_reachable_irreflexive w Hw) as Hirr.
    apply bas_reachable_wf in Hw.
    assert (Hne : p <> k) by (intros ->; by apply (Hirr k)).
    pose proof (Basic.dm_symmetric _ (Basic.wf_data _ Hw) _ _ Hp) as Hpk.
    assert (Hk : k ∈ Basic.connected w) by by eapply Basic.wf_peers_open.
    assert (Hpc : p ∈ Basic.connected w) by by eapply Basic.wf_peers_open.
    assert (Hvp : truthy (Some p) = true).
    { apply bool_decide_eq_true_2. by apply (bas_wf_partner_valid w k p). }
    assert (Hvk : truthy (Some k) = true).
    { apply bool_decide_eq_true_2. by apply (bas_wf_partner_valid w p k). }
    cbn [Basic.run].
    rewrite (bas_step_find_next w k Hk).
    rewrite (bas_step_find_next _ p) by done.
    eexists _, _. split; [reflexivity|]. cbn [Basic.server].
    destruct (bas_onFindNext_run k (Basic.server w)) as (_ & _ & He1).
    destruct (bas_onFindNext_run p
                (Basic.matched k (Basic.released k (Basic.server w))))
      as (_ & _ & He2).
    rewrite emitted_app, He1, app_nil_r, He2. clear He1 He2.
    destruct (Basic.server w) as [q pe]. cbn in Hp, Hpk, Hq. subst q.
    unfold Basic.left_msgs, Basic.matched_msgs, Basic.matched,
      Basic.released, Basic.paired, Basic.enqueued, Basic.dequeued.
    cbn [Basic.peers Basic.waitingQueue Basic.set_peers
         Basic.set_waitingQueue app].
    rewrite Hp, Hvp.
    cbn [Basic.peers Basic.waitingQueue Basic.set_peers
         Basic.set_waitingQueue app].
    rewrite lookup_delete_ne, lookup_delete_eq by done.
    cbn [Basic.peers Basic.waitingQueue Basic.set_peers
         Basic.set_waitingQueue app Basic.indexOf].
    rewrite (decide_False (P := k = p)) by done.
    cbn [Basic.indexOf]. rewrite (decide_True (P := -1 = -1)) by done.
    rewrite (decide_False (P := -1 > -1)) by lia.
    cbn [Basic.peers Basic.waitingQueue Basic.set_peers
         Basic.set_waitingQueue app].
    repeat apply conj; try done.
    rewrite (delete_delete pe k p). by apply pair_restored.
Qed.

Lemma X14_witness :
  exists w' t,
    Enhanced.run Enhanced.world_AB_paired
      [Enhanced.FindNextFrom "A"; Enhanced.FindNextFrom "B"]
    = Some (w', t)
    /\ emitted t = [("B", PeerDisconnected); ("A", WaitingForPeer);
                    ("A", MatchFound "B" true); ("B", MatchFound "A" false)]
    /\ Enhanced.peers (Enhanced.server w')
       = Enhanced.peers (Enhanced.server Enhanced.world_AB_paired)
    /\ Enhanced.waitingQueue (Enhanced.server w') = [].
Proof.
  apply (proj1 X14_partners_who_both_ask_meet_again
           Enhanced.world_AB_paired "A" "B").
  - exists [Enhanced.Connect Enhanced.socket_A 1000;
            Enhanced.Connect Enhanced.socket_B 2000]. eexists.
    vm_compute. reflexivity.
  - reflexivity.
  - discriminate.
  - reflexivity.
Defined.

(** ** The enhanced server against the basic server *)

Section Refinement.

Lemma erase_matched k user s :
  Enhanced.socketId user = k ->
  (forall h rest, Enhanced.waitingQueue s = h :: rest ->
     Enhanced.valid_id (Enhanced.socketId h)) ->
  erase (Enhanced.matched k user s) = Basic.matched k (erase s)
  /\ shared_msgs (Enhanced.matched_msgs k s) = Basic.matched_msgs k (erase s).
Proof.
  intros <- Hhead. destruct s as [so q p ui].
  unfold Enhanced.matched, Enhanced.matched_msgs, Basic.matched,
    Basic.matched_msgs, erase.
  cbn [Enhanced.waitingQueue Enhanced.peers Basic.waitingQueue] in *.
  destruct q as [|h rest].
  - done.
  - assert (truthy (Some (Enhanced.socketId h)) = true) as ->.
    { apply bool_decide_eq_true_2. by eapply Hhead. }
    done.
Qed.

Lemma erase_unpaired k s :
  ~ Enhanced.queued k s ->
  erase (Enhanced.unpaired k s) = Basic.released k (erase s)
  /\ Enhanced.left_msgs k s = Basic.left_msgs k (erase s).
Proof.
  intros Hnq. split; [|done].
  unfold Enhanced.unpaired, Basic.released.
  cbn [erase Basic.peers].
  assert (Hid : Basic.dequeued k (erase s) = erase s).
  { apply bas_dequeued_id. cbn. intros (u & -> & Hu)%list_elem_of_fmap.
    apply Hnq. by exists u. }
  rewrite Hid.
  destruct (Enhanced.peers s !! k) as [p|]; [|done].
  destruct (truthy (Some p)); [|done]. by destruct s.
Qed.

Lemma filter_all {A} (P : A -> Prop) `{!forall x, Decision (P x)} (l : list A) :
  (forall x, x ∈ l -> P x) -> filter P l = l.
Proof.
  induction l as [|a l IH]; intros Hall; [done|].
  rewrite filter_cons_True by (apply Hall; left).
  f_equal. apply IH. intros x Hx. apply Hall. by right.
Qed.

Lemma erase_cleaned k s :
  Enhanced.inv s ->
  erase (Enhanced.cleaned k (Enhanced.gateway_remove k s))
  = Basic.released k (erase s).
Proof.
  intros Hi. pose proof Hi as [Hs Hd Hsh Hpo Hqo Hv].
  unfold Enhanced.cleaned, Enhanced.unpaired, Basic.released,
    Enhanced.gateway_remove.
  destruct s as [so q p ui].
  cbn [erase Basic.peers Enhanced.peers Enhanced.waitingQueue
       Enhanced.sockets Enhanced.userInfo] in *.
  destruct (p !! k) as [c|] eqn:Hk.
  - rewrite (enh_inv_partner_valid _ _ _ Hi Hk).
    unfold Enhanced.set_userInfo, Enhanced.set_waitingQueue,
      Enhanced.set_peers, Basic.set_peers.
    cbn [Enhanced.peers Enhanced.waitingQueue Basic.waitingQueue Basic.peers].
    rewrite filter_all; [done|].
    intros u Hu Hn. apply Hd in Hu. rewrite Hn in Hu. congruence.
  - unfold Enhanced.set_userInfo, Enhanced.set_waitingQueue, Basic.dequeued.
    cbn [Enhanced.peers Enhanced.waitingQueue Basic.waitingQueue Basic.peers].
    destruct q as [|u [|]]; [done | | cbn in Hsh; lia].
    cbn.
    destruct (decide (Enhanced.socketId u = k)) as [Hu|Hu].
    + rewrite (decide_False (P := Enhanced.socketId u ≠ k))
        by (intros Hn; by apply Hn).
      destruct (decide (0 > -1)); [done|lia].
    + rewrite (decide_True (P := Enhanced.socketId u ≠ k)) by done.
      destruct (decide (-1 = -1)); [|done].
      destruct (decide (-1 > -1)); [lia|done].
Qed.

End Refinement.

(** X15. Forgetting join times and metadata ([erase]) turns the enhanced
    server into the basic one.  From every state that meets the enhanced
    server's invariant, a connection, a find-next of a connection that is
    not itself waiting, a disconnect of a connection that is not its own
    partner, and a signal whose payload is neither null nor undefined leave
    the same queue of ids and the same pair table in both servers, and the
    enhanced server sends exactly the messages of the basic server, plus
    its own waiting-for-peer and error messages. *)
Theorem X15_enhanced_server_extends_basic s :
  Enhanced.inv s ->
  (forall socket now,
     let e := Enhanced.onConnection socket now s in
     let b := Basic.onConnection (Enhanced.id socket) (erase s) in
     erase (final e) = final b
     /\ shared_msgs (emitted (trace e)) = emitted (trace b))
  /\ (forall k user,
        Enhanced.socketId user = k -> ~ Enhanced.queued k s ->
        let e := Enhanced.onFindNext k user s in
        let b := Basic.onFindNext k (erase s) in
        erase (final e) = final b
        /\ shared_msgs (emitted (trace e)) = emitted (trace b))
  /\ (forall k reason,
        Enhanced.peers s !! k ≠ Some k ->
        let e := Enhanced.onDisconnect k reason (Enhanced.gateway_remove k s) in
        let b := Basic.onDisconnect k (erase s) in
        erase (final e) = final b
        /\ emitted (trace e) = emitted (trace b))
  /\ (forall k payload,
        nullish payload = false ->
        let e := Enhanced.onSignal k payload s in
        let b := Basic.onSignal k payload (erase s) in
        erase (final e) = final b
        /\ value b = inr tt
        /\ shared_msgs (emitted (trace e)) = emitted (trace b)).
Proof.
  intros Hi.
  assert (Hhead : forall h rest, Enhanced.waitingQueue s = h :: rest ->
            Enhanced.valid_id (Enhanced.socketId h)).
  { intros h rest Hq. apply (Enhanced.inv_valid s Hi),
      (Enhanced.inv_queue_open s Hi). rewrite Hq. left. }
  repeat apply conj.
  - intros socket now e b.
    destruct (enh_onConnection_run socket now s) as (_ & He & Ht).
    destruct (bas_onConnection_run (Enhanced.id socket) (erase s))
      as (_ & Hb & Hu).
    subst e b. rewrite He, Ht, Hb, Hu.
    apply (erase_matched (Enhanced.id socket) _
             (Enhanced.set_userInfo _ s)); [done|].
    destruct s; exact Hhead.
  - intros k user Hsid Hnq e b.
    destruct (enh_onFindNext_run k user s) as (_ & He & Ht).
    destruct (bas_onFindNext_run k (erase s)) as (_ & Hb & Hu).
    subst e b. rewrite He, Ht, Hb, Hu.
    destruct (erase_unpaired k s Hnq) as [Hs Hm].
    destruct (erase_matched k user (Enhanced.unpaired k s) Hsid) as [Hs' Hm'].
    { rewrite enh_unpaired_queue. exact Hhead. }
    rewrite <- Hs, <- Hm, <- Hm'. split; [done|].
    unfold Enhanced.left_msgs.
    destruct (Enhanced.peers s !! k) as [p|]; [|done].
    by destruct (truthy (Some p)).
  - intros k reason Hself e b.
    destruct (enh_onDisconnect_run k reason (Enhanced.gateway_remove k s))
      as (_ & He & Ht).
    destruct (bas_onDisconnect_run k (erase s)) as (_ & Hb & Hu).
    subst e b. rewrite He, Ht, Hb, Hu. split; [by apply erase_cleaned|].
    unfold Enhanced.gone_msgs, Enhanced.live_peer, Basic.left_msgs.
    cbn [Enhanced.gateway_remove Enhanced.peers Enhanced.sockets erase
         Basic.peers].
    destruct (Enhanced.peers s !! k) as [p|] eqn:Hk; [|done].
    rewrite (enh_inv_partner_valid _ _ _ Hi Hk).
    rewrite bool_decide_eq_true_2; [done|].
    apply elem_of_difference. split.
    + apply (Enhanced.inv_peers_open s Hi p k), (Enhanced.inv_symmetric s Hi), Hk.
    + rewrite elem_of_singleton. intros ->. by apply Hself.
  - intros k payload Hn e b. subst e b.
    destruct (enh_onSignal_run k payload s) as (_ & -> & ->).
    pose proof (bas_onSignal_run k payload (erase s)) as (-> & Hb).
    cbn [erase Basic.peers] in Hb. rewrite Hn in *.
    split; [done|].
    unfold Enhanced.live_peer.
    destruct (Enhanced.peers s !! k) as [p|] eqn:Hk.
    + rewrite (enh_inv_partner_valid _ _ _ Hi Hk) in *.
      rewrite bool_decide_eq_true_2.
      * destruct Hb as [-> ->]. done.
      * apply (Enhanced.inv_peers_open s Hi p k),
          (Enhanced.inv_symmetric s Hi), Hk.
    + by destruct Hb as [-> ->].
Qed.

Lemma X15_witness :
  (erase (final (Enhanced.onFindNext "A" Enhanced.user_A (Enhanced.server Enhanced.world_AB_paired)))
   = final (Basic.onFindNext "A" (erase (Enhanced.server Enhanced.world_AB_paired)))
   /\ shared_msgs (emitted (trace (Enhanced.onFindNext "A" Enhanced.user_A (Enhanced.server Enhanced.world_AB_paired))))
      = emitted (trace (Basic.onFindNext "A" (erase (Enhanced.server Enhanced.world_AB_paired)))))
  /\ (erase (final (Enhanced.onDisconnect "A" "transport close"
                      (Enhanced.gateway_remove "A" (Enhanced.server Enhanced.world_AB_paired))))
      = final (Basic.onDisconnect "A" (erase (Enhanced.server Enhanced.world_AB_paired)))
      /\ emitted (trace (Enhanced.onDisconnect "A" "transport close"
                           (Enhanced.gateway_remove "A" (Enhanced.server Enhanced.world_AB_paired))))
         = emitted (trace (Basic.onDisconnect "A" (erase (Enhanced.server Enhanced.world_AB_paired))))).
Proof.
  assert (Hi : Enhanced.inv (Enhanced.server Enhanced.world_AB_paired))
    by apply Enhanced.wf_inv, enh_reachable_wf, enh_reachable_AB_paired.
  destruct (X15_enhanced_server_extends_basic (Enhanced.server Enhanced.world_AB_paired) Hi) as (_ & Hf & Hd & _).
  split.
  - apply (Hf "A" Enhanced.user_A); [reflexivity|].
    intros (u & Hu & _). vm_compute in Hu. inversion Hu.
  - apply (Hd "A" "transport close"). vm_compute. discriminate.
Defined.
